(** * NeonCrypt: the on-chain message ledger

    A shallow embedding of [contracts/NeonCrypt.sol] and the proofs of the
    ledger properties of the specification: dense identifiers, the per-owner
    index, soft delete, and the point, list and batch read paths.

    Conventions of the embedding:
    - [uint256], [address] and the [bytes32] ciphertext handles are [N];
      checked arithmetic of Solidity 0.8 is written out ([Panic 0x11]).
    - a [mapping] is a [gmap] read with the zero value as default.
    - a function body runs in the monad [M]: state passing over the contract
      storage, the external FHE contracts and the events emitted so far,
      with [revert] as the error.  A reverted call changes nothing.
    - gas is not modelled. *)

From Stdlib.Strings Require Import Byte.
From Stdlib.Numbers Require DecimalPos DecimalN.
From stdpp Require Import gmap strings list fin_maps numbers.

Local Open Scope N_scope.

(** ** Solidity value types *)

Abbreviation uint256 := N (only parsing).
Abbreviation address := N (only parsing).
Abbreviation bytes := (list byte) (only parsing).
(** [euint32] and [externalEuint32] are user-defined value types over
    [bytes32]. *)
Abbreviation euint32 := N (only parsing).
Abbreviation externalEuint32 := N (only parsing).

Definition MAX_UINT256 : N := 2 ^ 256 - 1.

(** ** Failures of a call *)

Inductive Failure :=
| Revert (reason : string)   (* require(cond, reason) *)
| Panic (code : N)           (* compiler-inserted checks *)
| AuthorityFailure.          (* a call into the FHE library reverted *)

#[global] Instance Failure_eq_dec : EqDecision Failure.
Proof. solve_decision. Defined.

Definition PANIC_OVERFLOW : N := 17.       (* 0x11 *)
Definition PANIC_INDEX : N := 50.          (* 0x32 *)

(** The failure reasons of the specification, as the contract signals them. *)
Definition InvalidProof : Failure := Revert "Input proof cannot be empty".
Definition NotFound : Failure := Revert "Message does not exist".
Definition Unauthorized : Failure := Revert "Not message owner".
Definition AlreadyDeleted : Failure := Revert "Message already deleted".

Inductive result (A : Type) :=
| Ok (a : A)
| Err (e : Failure).
Arguments Ok {A} a.
Arguments Err {A} e.

(** ** Contract storage *)

Record Message := mkMessage {
  encryptedContent : euint32;
  timestamp : uint256;
  sender : address;
  isActive : bool
}.

#[global] Instance Message_eq_dec : EqDecision Message.
Proof. solve_decision. Defined.

(** The value a [mapping(uint256 => Message)] holds at an unwritten key. *)
Definition zero_Message : Message := mkMessage 0 0 0 false.

Record Storage := mkStorage {
  _totalMessages : uint256;
  _messages : gmap N Message;
  _userMessages : gmap N (list N)
}.

Definition empty_Storage : Storage := mkStorage 0 ∅ ∅.

(** [_messages[id]] and [_userMessages[user]] as Solidity reads them. *)
Definition message_at (st : Storage) (id : uint256) : Message :=
  default zero_Message (_messages st !! id).

Definition ids_of (st : Storage) (user : address) : list N :=
  default [] (_userMessages st !! user).

Inductive Event :=
| MessageSubmitted (sender : address) (messageId : uint256) (timestamp : uint256)
| MessageDeleted (sender : address) (messageId : uint256).

(** ** The Ciphertext Authority

    [FHE.fromExternal], [FHE.allowThis] and [FHE.allow] call the FHEVM
    contracts, which are not part of this repository.  They are an interface:
    a state of their own, and operations that may revert ([None]). *)

Class CiphertextAuthority := {
  authority : Type;
  fromExternal :
    address (* this *) → address (* msg.sender *) →
    externalEuint32 → bytes → authority → option (euint32 * authority);
  allow :
    address (* this *) → euint32 → address (* grantee *) →
    authority → option authority
}.

(** A pass-through authority: every handle with its proof is accepted as it
    is, and the grants are recorded. *)
#[global] Instance mock_authority : CiphertextAuthority | 100 := {|
  authority := list (N * N);
  fromExternal := λ _ _ h _ a, Some (h, a);
  allow := λ _ h who a, Some (a ++ [(h, who)])
|}.

(** ** Execution environment and monad *)

Record Env := mkEnv {
  this : address;
  msg_sender : address;
  block_timestamp : uint256
}.

Section Ledger.
Context {CA : CiphertextAuthority}.

(** What persists between calls. *)
Record World := mkWorld {
  ledger : Storage;
  coprocessor : authority
}.

(** What a running call sees and changes. *)
Record Exec := mkExec {
  world : World;
  emitted : list Event
}.

Definition M (A : Type) : Type := Exec → result (A * Exec).

Definition ret {A} (a : A) : M A := λ x, Ok (a, x).

Definition bind {A B} (c : M A) (k : A → M B) : M B :=
  λ x, match c x with
       | Ok (a, x') => k a x'
       | Err e => Err e
       end.

Definition revert {A} (e : Failure) : M A := λ _, Err e.

Definition require (cond : bool) (reason : string) : M unit :=
  if cond then ret tt else revert (Revert reason).

Definition read_storage : M Storage := λ x, Ok (ledger (world x), x).

Definition write_storage (st : Storage) : M unit :=
  λ x, Ok (tt, mkExec (mkWorld st (coprocessor (world x))) (emitted x)).

Definition emit (e : Event) : M unit :=
  λ x, Ok (tt, mkExec (world x) (emitted x ++ [e])).

End Ledger.

Declare Scope ledger_scope.
Delimit Scope ledger_scope with ledger.
Notation "'let!' x ':=' c 'in' k" := (bind c (λ x, k))
  (at level 10, x pattern, c at level 100, k at level 200) : ledger_scope.
Notation "c ';;' k" := (bind c (λ _, k))
  (at level 100, k at level 200, right associativity) : ledger_scope.

(** ** The contract *)

Section Contract.
Context {CA : CiphertextAuthority}.
Local Open Scope ledger_scope.

(** *** Library calls and compiler-generated operations *)

Definition FHE_fromExternal (env : Env) (inputHandle : externalEuint32)
    (inputProof : bytes) : M euint32 :=
  λ x, match fromExternal (this env) (msg_sender env) inputHandle inputProof
               (coprocessor (world x)) with
       | Some (content, a) =>
           Ok (content, mkExec (mkWorld (ledger (world x)) a) (emitted x))
       | None => Err AuthorityFailure
       end.

Definition FHE_allow (env : Env) (content : euint32) (account : address) : M unit :=
  λ x, match allow (this env) content account (coprocessor (world x)) with
       | Some a => Ok (tt, mkExec (mkWorld (ledger (world x)) a) (emitted x))
       | None => Err AuthorityFailure
       end.

Definition FHE_allowThis (env : Env) (content : euint32) : M unit :=
  FHE_allow env content (this env).

(** [_totalMessages++]: the old value is the result; the checked increment
    panics when the new value does not fit 256 bits. *)
Definition post_increment_totalMessages : M uint256 :=
  let! st := read_storage in
  let n := _totalMessages st in
  if n + 1 <=? MAX_UINT256
  then write_storage (mkStorage (n + 1) (_messages st) (_userMessages st)) ;;
       ret n
  else revert (Panic PANIC_OVERFLOW).

(** [_messages[id] = m]. *)
Definition store_message (id : uint256) (m : Message) : M unit :=
  let! st := read_storage in
  write_storage (mkStorage (_totalMessages st) (<[id := m]> (_messages st))
                           (_userMessages st)).

(** [_userMessages[user].push(id)].  An index holds at most
    [_totalMessages] identifiers, so its length cannot overflow. *)
Definition push_userMessages (user : address) (id : uint256) : M unit :=
  let! st := read_storage in
  write_storage (mkStorage (_totalMessages st) (_messages st)
                           (<[user := ids_of st user ++ [id]]> (_userMessages st))).

(** [msg_.isActive = b] through the storage reference [msg_ = _messages[id]]. *)
Definition set_isActive (id : uint256) (b : bool) : M unit :=
  let! st := read_storage in
  let m := message_at st id in
  write_storage
    (mkStorage (_totalMessages st)
       (<[id := mkMessage (encryptedContent m) (timestamp m) (sender m) b]>
          (_messages st))
       (_userMessages st)).

(** Memory arrays: [arr[i]] as a value and as an assignment target; both
    panic out of range. *)
Definition index {A} (arr : list A) (i : nat) : M A :=
  match arr !! i with
  | Some a => ret a
  | None => revert (Panic PANIC_INDEX)
  end.

Definition assign {A} (arr : list A) (i : nat) (v : A) : M (list A) :=
  if decide (i < length arr)%nat
  then ret (<[i := v]> arr)
  else revert (Panic PANIC_INDEX).

(** [for (uint256 i = lo; i < hi; i++) body], for a body that assigns
    neither [i] nor [hi]; [acc] is what the body updates. *)
Fixpoint for_loop {A} (k : nat) (i : nat) (body : nat → A → M A) (acc : A) : M A :=
  match k with
  | O => ret acc
  | S k' => let! acc' := body i acc in for_loop k' (S i) body acc'
  end.

Definition for_range {A} (lo hi : nat) (body : nat → A → M A) (acc : A) : M A :=
  for_loop (hi - lo) lo body acc.

(** *** External functions *)

Definition submitMessage (env : Env) (encryptedContent : externalEuint32)
    (inputProof : bytes) : M unit :=
  require (0 <? length inputProof)%nat "Input proof cannot be empty" ;;
  let! content := FHE_fromExternal env encryptedContent inputProof in
  let! messageId := post_increment_totalMessages in
  store_message messageId
    (mkMessage content (block_timestamp env) (msg_sender env) true) ;;
  push_userMessages (msg_sender env) messageId ;;
  FHE_allowThis env content ;;
  FHE_allow env content (msg_sender env) ;;
  emit (MessageSubmitted (msg_sender env) messageId (block_timestamp env)).

Definition getMessage (messageId : uint256)
    : M (euint32 * uint256 * address * bool) :=
  let! st := read_storage in
  require (messageId <? _totalMessages st) "Message does not exist" ;;
  let msg_ := message_at st messageId in
  ret (encryptedContent msg_, timestamp msg_, sender msg_, isActive msg_).

Definition getUserMessages (user : address) : M (list uint256) :=
  let! st := read_storage in
  ret (ids_of st user).

Definition getMessageCount (user : address) : M uint256 :=
  let! st := read_storage in
  ret (N.of_nat (length (ids_of st user))).

(** The body of the loop of [getUserMessageMetadata], at index [i]. *)
Definition getUserMessageMetadata_body (userMsgIds : list uint256) (i : nat)
    (acc : list uint256 * list uint256 * list bool)
    : M (list uint256 * list uint256 * list bool) :=
  let '(timestamps, messageIds, activeStatus) := acc in
  let! msgId := index userMsgIds i in
  let! st := read_storage in
  let msg_ := message_at st msgId in
  let! timestamps := assign timestamps i (timestamp msg_) in
  let! messageIds := assign messageIds i msgId in
  let! activeStatus := assign activeStatus i (isActive msg_) in
  ret (timestamps, messageIds, activeStatus).

Definition getUserMessageMetadata (user : address)
    : M (list uint256 * list uint256 * list bool) :=
  let! st := read_storage in
  let userMsgIds := ids_of st user in
  let length_ := length userMsgIds in
  let timestamps := replicate length_ 0 in
  let messageIds := replicate length_ 0 in
  let activeStatus := replicate length_ false in
  for_range 0 length_ (getUserMessageMetadata_body userMsgIds)
    (timestamps, messageIds, activeStatus).

Definition getTotalMessages : M uint256 :=
  let! st := read_storage in
  ret (_totalMessages st).

(** The body of the loop of [getMessagesBatch], at index [i]. *)
Definition getMessagesBatch_body (messageIds : list uint256) (i : nat)
    (acc : list uint256 * list address * list bool)
    : M (list uint256 * list address * list bool) :=
  let '(timestamps, senders, activeStatuses) := acc in
  let! msgId := index messageIds i in
  let! st := read_storage in
  require (msgId <? _totalMessages st) "Message does not exist" ;;
  let msg_ := message_at st msgId in
  let! timestamps := assign timestamps i (timestamp msg_) in
  let! senders := assign senders i (sender msg_) in
  let! activeStatuses := assign activeStatuses i (isActive msg_) in
  ret (timestamps, senders, activeStatuses).

Definition getMessagesBatch (messageIds : list uint256)
    : M (list uint256 * list address * list bool) :=
  let length_ := length messageIds in
  let timestamps := replicate length_ 0 in
  let senders := replicate length_ 0 in
  let activeStatuses := replicate length_ false in
  for_range 0 length_ (getMessagesBatch_body messageIds)
    (timestamps, senders, activeStatuses).

Definition deleteMessage (env : Env) (messageId : uint256) : M unit :=
  let! st := read_storage in
  require (messageId <? _totalMessages st) "Message does not exist" ;;
  let msg_ := message_at st messageId in
  require (bool_decide (sender msg_ = msg_sender env)) "Not message owner" ;;
  require (isActive msg_) "Message already deleted" ;;
  set_isActive messageId false ;;
  emit (MessageDeleted (msg_sender env) messageId).

Definition isMessageActive (messageId : uint256) : M (bool * bool) :=
  let! st := read_storage in
  if _totalMessages st <=? messageId
  then ret (false, false)
  else ret (true, isActive (message_at st messageId)).

(** *** Calls, receipts and sequences of calls *)

Inductive Call :=
| CallSubmitMessage (encryptedContent : externalEuint32) (inputProof : bytes)
| CallGetMessage (messageId : uint256)
| CallGetUserMessages (user : address)
| CallGetMessageCount (user : address)
| CallGetUserMessageMetadata (user : address)
| CallGetTotalMessages
| CallGetMessagesBatch (messageIds : list uint256)
| CallDeleteMessage (messageId : uint256)
| CallIsMessageActive (messageId : uint256).

Inductive Return :=
| RetUnit
| RetMessage (r : euint32 * uint256 * address * bool)
| RetIds (ids : list uint256)
| RetCount (n : uint256)
| RetMetadata (r : list uint256 * list uint256 * list bool)
| RetBatch (r : list uint256 * list address * list bool)
| RetProbe (r : bool * bool).

Definition dispatch (env : Env) (c : Call) : M Return :=
  match c with
  | CallSubmitMessage h p => submitMessage env h p ;; ret RetUnit
  | CallGetMessage id => let! r := getMessage id in ret (RetMessage r)
  | CallGetUserMessages u => let! r := getUserMessages u in ret (RetIds r)
  | CallGetMessageCount u => let! r := getMessageCount u in ret (RetCount r)
  | CallGetUserMessageMetadata u =>
      let! r := getUserMessageMetadata u in ret (RetMetadata r)
  | CallGetTotalMessages => let! r := getTotalMessages in ret (RetCount r)
  | CallGetMessagesBatch ids =>
      let! r := getMessagesBatch ids in ret (RetBatch r)
  | CallDeleteMessage id => deleteMessage env id ;; ret RetUnit
  | CallIsMessageActive id => let! r := isMessageActive id in ret (RetProbe r)
  end.

Inductive Outcome :=
| Succeeded (r : Return) (events : list Event)
| Reverted (e : Failure).

Definition Tx : Type := Env * Call.

(** A call runs to completion or reverts; a reverted call leaves the world
    as it was and emits nothing. *)
Definition transact (tx : Tx) (w : World) : World * Outcome :=
  match dispatch tx.1 tx.2 (mkExec w []) with
  | Ok (r, x) => (world x, Succeeded r (emitted x))
  | Err e => (w, Reverted e)
  end.

Fixpoint run (txs : list Tx) (w : World) : World * list Outcome :=
  match txs with
  | [] => (w, [])
  | tx :: rest =>
      let (w1, o) := transact tx w in
      let (w2, os) := run rest w1 in
      (w2, o :: os)
  end.

(** The ledger as deployed. *)
Definition genesis (a : authority) : World := mkWorld empty_Storage a.

Inductive reachable : World → Prop :=
| reachable_genesis a : reachable (genesis a)
| reachable_step w tx : reachable w → reachable (transact tx w).1.

(** What a view function returns in a world, outside any transaction. *)
Definition view {A} (c : M A) (w : World) : result A :=
  match c (mkExec w []) with
  | Ok (a, _) => Ok a
  | Err e => Err e
  end.

End Contract.

(** ** Vocabulary of the properties *)

Section Vocabulary.
Context {CA : CiphertextAuthority}.

(** The storage a successful [submitMessage] leaves behind. *)
Definition after_submit (st : Storage) (content : euint32) (env : Env) : Storage :=
  mkStorage (_totalMessages st + 1)
    (<[_totalMessages st :=
         mkMessage content (block_timestamp env) (msg_sender env) true]>
       (_messages st))
    (<[msg_sender env := ids_of st (msg_sender env) ++ [_totalMessages st]]>
       (_userMessages st)).

(** The storage a successful [deleteMessage] leaves behind. *)
Definition after_delete (st : Storage) (id : uint256) : Storage :=
  mkStorage (_totalMessages st)
    (<[id := mkMessage (encryptedContent (message_at st id))
               (timestamp (message_at st id)) (sender (message_at st id)) false]>
       (_messages st))
    (_userMessages st).

(** The columns [getMessagesBatch] and [getUserMessageMetadata] build. *)
Definition column {A} (f : Message → A) (st : Storage) (ids : list uint256) : list A :=
  (λ id, f (message_at st id)) <$> ids.

Definition all_valid (st : Storage) (ids : list uint256) : bool :=
  forallb (λ id, id <? _totalMessages st) ids.

(** The identifiers below [n], in increasing order. *)
Definition ids_below (n : uint256) : list uint256 :=
  N.of_nat <$> seq 0 (N.to_nat n).

(** The calls that are declared [view]. *)
Definition is_view (c : Call) : bool :=
  match c with
  | CallSubmitMessage _ _ | CallDeleteMessage _ => false
  | _ => true
  end.

(** What one call can do to the world, with the receipt it leaves. *)
Inductive effect (w : World) : Tx → World → Outcome → Prop :=
| effect_revert tx e :
    effect w tx w (Reverted e)
| effect_view tx r :
    is_view tx.2 = true →
    effect w tx w (Succeeded r [])
| effect_create env h p content a :
    p ≠ [] →
    _totalMessages (ledger w) + 1 ≤ MAX_UINT256 →
    effect w (env, CallSubmitMessage h p)
      (mkWorld (after_submit (ledger w) content env) a)
      (Succeeded RetUnit
         [MessageSubmitted (msg_sender env) (_totalMessages (ledger w))
            (block_timestamp env)])
| effect_delete env id :
    id < _totalMessages (ledger w) →
    sender (message_at (ledger w) id) = msg_sender env →
    isActive (message_at (ledger w) id) = true →
    effect w (env, CallDeleteMessage id)
      (mkWorld (after_delete (ledger w) id) (coprocessor w))
      (Succeeded RetUnit [MessageDeleted (msg_sender env) id]).

(** The calls of a run paired with their receipts. *)
Definition receipts (txs : list Tx) (w : World) : list (Tx * Outcome) :=
  zip txs (run txs w).2.

Definition submitted_id (e : Event) : option uint256 :=
  match e with
  | MessageSubmitted _ id _ => Some id
  | MessageDeleted _ _ => None
  end.

Definition is_create (r : Tx * Outcome) : bool :=
  match r with
  | ((_, CallSubmitMessage _ _), Succeeded _ _) => true
  | _ => false
  end.

(** The identifiers a receipt reports as assigned by a successful create. *)
Definition created (r : Tx * Outcome) : list uint256 :=
  match r with
  | ((_, CallSubmitMessage _ _), Succeeded _ evs) => omap submitted_id evs
  | _ => []
  end.

(** The same, for the creates of one caller. *)
Definition created_by (o : address) (r : Tx * Outcome) : list uint256 :=
  if bool_decide (msg_sender r.1.1 = o) then created r else [].

(** The life of a record, as [isMessageActive] reports it. *)
Inductive Status := Nonexistent | Active | Inactive.

Definition status (w : World) (id : uint256) : Status :=
  match view (isMessageActive id) w with
  | Ok (true, true) => Active
  | Ok (true, false) => Inactive
  | _ => Nonexistent
  end.

Definition allowed (s s' : Status) : bool :=
  match s, s' with
  | Nonexistent, Nonexistent | Nonexistent, Active
  | Active, Active | Active, Inactive
  | Inactive, Inactive => true
  | _, _ => false
  end.

(** The invariant of the storage: records are dense below the counter, and
    each owner's index lists the records of that owner in increasing order. *)
Record ledger_inv (st : Storage) : Prop := {
  inv_dense : ∀ id, is_Some (_messages st !! id) ↔ id < _totalMessages st;
  inv_index : ∀ o,
    ids_of st o =
      filter (λ id, sender (message_at st id) = o)
        (ids_below (_totalMessages st))
}.

(** A record, once it exists, keeps its content handle, timestamp and owner
    for ever, and an inactive record stays inactive. *)
Definition persists (st st' : Storage) (id : N) : Prop :=
  id < _totalMessages st' ∧
  encryptedContent (message_at st' id) = encryptedContent (message_at st id) ∧
  timestamp (message_at st' id) = timestamp (message_at st id) ∧
  sender (message_at st' id) = sender (message_at st id) ∧
  (isActive (message_at st id) = false → isActive (message_at st' id) = false).

End Vocabulary.

(** ** A scenario

    Two callers and the calls of the scenarios of the specification, run on
    the pass-through authority. *)

Module Scenario.

Definition alice : N := 10.
Definition bob : N := 11.
Definition ledger_address : N := 99.

Definition as_alice : Env := mkEnv ledger_address alice 1000.
Definition as_bob : Env := mkEnv ledger_address bob 1001.

Definition proof1 : list byte := [x01%byte].

(** Alice creates record 0, Bob creates record 1. *)
Definition two_creates : list Tx :=
  [(as_alice, CallSubmitMessage 7 proof1); (as_bob, CallSubmitMessage 8 proof1)].

(** ... then Bob tries to delete record 0, and Alice deletes it. *)
Definition then_delete : list Tx :=
  two_creates ++
  [(as_bob, CallDeleteMessage 0); (as_alice, CallDeleteMessage 0)].

Definition deployed : World := genesis (CA := mock_authority) [].
Definition after_creates : World := (run two_creates deployed).1.
Definition after_delete0 : World := (run then_delete deployed).1.

End Scenario.

(** ** Vocabulary of the further properties *)

Section Journal.
Context {CA : CiphertextAuthority}.

(** The events of a receipt, and of the receipts of a run in order: what an
    observer of the logs sees. *)
Definition events_of (o : Outcome) : list Event :=
  match o with
  | Succeeded _ evs => evs
  | Reverted _ => []
  end.

Definition history (os : list Outcome) : list Event := os ≫= events_of.

(** The logs as a journal of the storage. *)
Record journal_inv (st : Storage) (h : list Event) : Prop := {
  journal_submitted : ∀ s id t,
    MessageSubmitted s id t ∈ h ↔
    id < _totalMessages st ∧ sender (message_at st id) = s ∧
    timestamp (message_at st id) = t;
  journal_order : omap submitted_id h = ids_below (_totalMessages st);
  journal_deleted : ∀ s id,
    MessageDeleted s id ∈ h ↔
    id < _totalMessages st ∧ sender (message_at st id) = s ∧
    isActive (message_at st id) = false;
  journal_NoDup : NoDup h
}.

(** The outcome of [submitMessage], check by check. *)
Definition submit_outcome (env : Env) (h : N) (p : list byte) (w : World)
    : World * Outcome :=
  match p with
  | [] => (w, Reverted InvalidProof)
  | _ :: _ =>
    match fromExternal (this env) (msg_sender env) h p (coprocessor w) with
    | None => (w, Reverted AuthorityFailure)
    | Some (content, a1) =>
      if _totalMessages (ledger w) + 1 <=? MAX_UINT256 then
        match allow (this env) content (this env) a1 with
        | None => (w, Reverted AuthorityFailure)
        | Some a2 =>
          match allow (this env) content (msg_sender env) a2 with
          | None => (w, Reverted AuthorityFailure)
          | Some a3 =>
              (mkWorld (after_submit (ledger w) content env) a3,
               Succeeded RetUnit
                 [MessageSubmitted (msg_sender env) (_totalMessages (ledger w))
                    (block_timestamp env)])
          end
        end
      else (w, Reverted (Panic PANIC_OVERFLOW))
    end
  end.

(** The block timestamps under which the calls of a run execute. *)
Definition stamps (txs : list Tx) : list N :=
  (λ tx, block_timestamp tx.1) <$> txs.

(** A list of timestamps in which no entry is earlier than one before it. *)
Fixpoint non_decreasing (l : list N) : Prop :=
  match l with
  | [] => True
  | t :: l' => Forall (N.le t) l' ∧ non_decreasing l'
  end.

(** Record timestamps do not decrease with the identifier, and none is
    later than [b]. *)
Definition stamped_in_order (st : Storage) (b : N) : Prop :=
  (∀ id, id < _totalMessages st → timestamp (message_at st id) ≤ b) ∧
  (∀ i j, i ≤ j → j < _totalMessages st →
     timestamp (message_at st i) ≤ timestamp (message_at st j)).

End Journal.

(** ** The client-side value codec ([fhevm.ts])

    [stringToUint32], [uint32ToString] and [toHexString], which turn what
    the user types into the 32-bit value that is encrypted, and bytes into
    the hexadecimal strings passed to [submitMessage].

    A JavaScript string is the list of its UTF-16 code units; a number that
    holds an integer is that integer in [Z].  Every intermediate value of
    these functions is an integer below 2^53 in magnitude, where the
    arithmetic of doubles is exact; [parseInt] of a string of digits is
    modelled by its exact value, which compares with 4294967295 as the
    rounded double does. *)

Module Frontend.

Local Open Scope Z_scope.

(** [ToInt32] and [ToUint32] of the language specification, on integers. *)
Definition ToInt32 (z : Z) : Z :=
  let m := z mod 2 ^ 32 in
  if m <? 2 ^ 31 then m else m - 2 ^ 32.

Definition ToUint32 (z : Z) : Z := z mod 2 ^ 32.

(** [a << k], [a & b] and [a >>> k]. *)
Definition shl (a k : Z) : Z := ToInt32 (Z.shiftl (ToInt32 a) (Z.land k 31)).

Definition band (a b : Z) : Z := ToInt32 (Z.land (ToInt32 a) (ToInt32 b)).

Definition ushr (a k : Z) : Z := Z.shiftr (ToUint32 a) (Z.land k 31).

(** The code units [String.prototype.trim] removes: WhiteSpace and
    LineTerminator. *)
Definition is_whitespace (c : N) : bool :=
  bool_decide (c ∈ [9; 10; 11; 12; 13; 32; 160; 5760; 8232; 8233; 8239;
                    8287; 12288; 65279]%N)
  || ((8192 <=? c)%N && (c <=? 8202)%N).

Fixpoint trimStart (s : list N) : list N :=
  match s with
  | c :: s' => if is_whitespace c then trimStart s' else s
  | [] => []
  end.

Definition trim (s : list N) : list N :=
  reverse (trimStart (reverse (trimStart s))).

(** [/^\d+$/.test(s)]. *)
Definition is_digit (c : N) : bool := ((48 <=? c) && (c <=? 57))%N.

Definition all_digits (s : list N) : bool :=
  match s with
  | [] => false
  | _ :: _ => forallb is_digit s
  end.

(** [parseInt(s, 10)] for a string of digits. *)
Definition parseInt10 (s : list N) : Z :=
  fold_left (λ acc c, 10 * acc + (Z.of_N c - 48)) s 0.

(** The loop of [stringToUint32]: [str.charCodeAt(i)] for each [i]. *)
Definition hash_step (hash : Z) (char : N) : Z :=
  let hash := shl hash 5 - hash + Z.of_N char in
  band hash hash.

Definition hash_loop (str : list N) : Z := fold_left hash_step str 0.

Definition stringToUint32 (str : list N) : Z :=
  let trimmed := trim str in
  let hashed := ushr (Z.abs (hash_loop str)) 0 in
  if all_digits trimmed then
    let num := parseInt10 trimmed in
    if (0 <=? num) && (num <=? 4294967295) then num else hashed
  else hashed.

(** [num.toString()] for an integer below 10^21 in magnitude. *)
Fixpoint uint_codes (d : Decimal.uint) : list N :=
  match d with
  | Decimal.Nil => []
  | Decimal.D0 d => 48%N :: uint_codes d
  | Decimal.D1 d => 49%N :: uint_codes d
  | Decimal.D2 d => 50%N :: uint_codes d
  | Decimal.D3 d => 51%N :: uint_codes d
  | Decimal.D4 d => 52%N :: uint_codes d
  | Decimal.D5 d => 53%N :: uint_codes d
  | Decimal.D6 d => 54%N :: uint_codes d
  | Decimal.D7 d => 55%N :: uint_codes d
  | Decimal.D8 d => 56%N :: uint_codes d
  | Decimal.D9 d => 57%N :: uint_codes d
  end.

Definition uint32ToString (num : Z) : list N :=
  if num <? 0
  then 45%N :: uint_codes (N.to_uint (Z.to_N (- num)))
  else uint_codes (N.to_uint (Z.to_N num)).

(** [b.toString(16)] for an element of a [Uint8Array], and
    [s.padStart(n, c)] for a one-character filler. *)
Definition hex_digit (d : N) : N := (if d <? 10 then 48 + d else 87 + d)%N.

Definition toString16 (b : byte) : list N :=
  let n := Byte.to_N b in
  if (n <? 16)%N then [hex_digit n] else [hex_digit (n / 16); hex_digit (n mod 16)].

Definition padStart (n : nat) (c : N) (s : list N) : list N :=
  replicate (n - length s) c ++ s.

Definition toHexString (bytes : list byte) : list N :=
  [48%N; 120%N] ++ mjoin ((λ b, padStart 2 48%N (toString16 b)) <$> bytes).

(** A reader of two hexadecimal digits, to state that [toHexString] loses
    nothing. *)
Definition hex_value (c : N) : option N :=
  if ((48 <=? c) && (c <=? 57))%N then Some (c - 48)%N
  else if ((97 <=? c) && (c <=? 102))%N then Some (c - 87)%N
  else None.

Fixpoint read_hex_pairs (s : list N) : option (list byte) :=
  match s with
  | [] => Some []
  | hi :: lo :: rest =>
      match hex_value hi, hex_value lo, read_hex_pairs rest with
      | Some h, Some l, Some bs =>
          match Byte.of_N (16 * h + l) with
          | Some b => Some (b :: bs)
          | None => None
          end
      | _, _, _ => None
      end
  | _ => None
  end.

End Frontend.

(** ** Reasoning about one call *)

Ltac unfold_monad :=
  unfold require, read_storage, write_storage, emit, revert, ret, bind,
    FHE_allowThis, FHE_allow, FHE_fromExternal, post_increment_totalMessages,
    store_message, push_userMessages, set_isActive in *.

Section CallLemmas.
Context {CA : CiphertextAuthority}.
Local Open Scope ledger_scope.

Lemma getMessage_eq id x :
  getMessage id x =
    if id <? _totalMessages (ledger (world x))
    then let m := message_at (ledger (world x)) id in
         Ok ((encryptedContent m, timestamp m, sender m, isActive m), x)
    else Err NotFound.
Proof. unfold getMessage. unfold_monad. by destruct (id <? _). Qed.

Lemma isMessageActive_eq id x :
  isMessageActive id x =
    Ok (if id <? _totalMessages (ledger (world x))
        then (true, isActive (message_at (ledger (world x)) id))
        else (false, false), x).
Proof.
  unfold isMessageActive. unfold_monad. rewrite N.ltb_antisym.
  by destruct (_ <=? id).
Qed.

Lemma deleteMessage_eq env id x :
  deleteMessage env id x =
    let st := ledger (world x) in
    if id <? _totalMessages st then
      if bool_decide (sender (message_at st id) = msg_sender env) then
        if isActive (message_at st id) then
          Ok (tt, mkExec (mkWorld (after_delete st id) (coprocessor (world x)))
                    (emitted x ++ [MessageDeleted (msg_sender env) id]))
        else Err AlreadyDeleted
      else Err Unauthorized
    else Err NotFound.
Proof.
  unfold deleteMessage. unfold_monad. cbn.
  destruct (id <? _); [|done]. destruct (bool_decide _); [|done].
  by destruct (isActive _).
Qed.

Lemma submitMessage_empty env h x : submitMessage env h [] x = Err InvalidProof.
Proof. reflexivity. Qed.

Lemma submitMessage_Ok env h p x u x' :
  submitMessage env h p x = Ok (u, x') →
  p ≠ [] ∧ _totalMessages (ledger (world x)) + 1 ≤ MAX_UINT256 ∧
  ∃ content a,
    x' = mkExec (mkWorld (after_submit (ledger (world x)) content env) a)
           (emitted x ++
              [MessageSubmitted (msg_sender env)
                 (_totalMessages (ledger (world x))) (block_timestamp env)]).
Proof.
  unfold submitMessage. unfold_monad. cbn.
  destruct p as [|b p]; [done|]. cbn.
  destruct (fromExternal _ _ _ _ _) as [[content a1]|]; [|done]. cbn.
  destruct (_ <=? MAX_UINT256) eqn:Hle; [|done]. cbn.
  destruct (allow _ _ (this env) _) as [a2|]; [|done]. cbn.
  destruct (allow _ _ (msg_sender env) _) as [a3|]; [|done].
  intros [= <- <-]. split; [done|]. split; [by apply N.leb_le|].
  by exists content, a3.
Qed.

(** A create goes through whenever the proof is not empty, the authority
    accepts the input and both grants, and the counter has room. *)
Lemma submitMessage_accepts env h p x content a1 a2 a3 :
  p ≠ [] →
  fromExternal (this env) (msg_sender env) h p (coprocessor (world x))
    = Some (content, a1) →
  _totalMessages (ledger (world x)) + 1 ≤ MAX_UINT256 →
  allow (this env) content (this env) a1 = Some a2 →
  allow (this env) content (msg_sender env) a2 = Some a3 →
  submitMessage env h p x =
    Ok (tt, mkExec (mkWorld (after_submit (ledger (world x)) content env) a3)
              (emitted x ++
                 [MessageSubmitted (msg_sender env)
                    (_totalMessages (ledger (world x))) (block_timestamp env)])).
Proof.
  intros Hp Hf Hle Ha1 Ha2. unfold submitMessage. unfold_monad. cbn.
  destruct p as [|b p]; [done|]. cbn. rewrite Hf. cbn.
  apply N.leb_le in Hle. rewrite Hle. cbn. rewrite Ha1. cbn. by rewrite Ha2.
Qed.

(** *** The two loops *)

Lemma fill_next {A} (T : list A) (i k : nat) (d v : A) :
  T !! i = Some v →
  <[i := v]> (take i T ++ replicate (S k) d) = take (S i) T ++ replicate k d.
Proof.
  intros HT. pose proof (lookup_lt_Some _ _ _ HT) as Hlt.
  rewrite (take_S_r _ _ _ HT), <- assoc by apply _.
  rewrite insert_app_r_alt by (rewrite length_take; lia).
  rewrite length_take, Nat.min_l, Nat.sub_diag by lia. done.
Qed.

Lemma assign_partial {A} (T : list A) (i k : nat) (d v : A) x :
  T !! i = Some v →
  assign (take i T ++ replicate (S k) d) i v x
  = Ok (take (S i) T ++ replicate k d, x).
Proof.
  intros HT. pose proof (lookup_lt_Some _ _ _ HT) as Hlt.
  unfold assign. rewrite decide_True.
  - unfold ret. by rewrite fill_next.
  - rewrite length_app, length_take, length_replicate. lia.
Qed.

Lemma getMessagesBatch_loop ids x k i :
  (i + k = length ids)%nat →
  let st := ledger (world x) in
  for_loop k i (getMessagesBatch_body ids)
    (take i (column timestamp st ids) ++ replicate k 0,
     take i (column sender st ids) ++ replicate k 0,
     take i (column isActive st ids) ++ replicate k false) x
  = if all_valid st (drop i ids)
    then Ok ((column timestamp st ids, column sender st ids,
              column isActive st ids), x)
    else Err NotFound.
Proof.
  intros Hik st. revert i Hik. induction k as [|k IH]; intros i Hik.
  - rewrite drop_ge by lia. cbn.
    rewrite !take_ge, !app_nil_r by (unfold column; rewrite length_fmap; lia).
    done.
  - destruct (lookup_lt_is_Some_2 ids i) as [id Hid]; [lia|].
    rewrite (drop_S _ _ _ Hid). cbn [for_loop all_valid forallb].
    unfold bind at 1. unfold getMessagesBatch_body, index. rewrite Hid.
    unfold bind at 1. unfold ret at 1. unfold bind at 1.
    unfold read_storage at 1. unfold bind at 1. fold st.
    destruct (id <? _totalMessages st) eqn:Hv; cbn [require andb]; [|done].
    unfold ret at 1.
    assert (Hc : ∀ A (f : Message → A),
              column f st ids !! i = Some (f (message_at st id))).
    { intros A f. unfold column. by rewrite list_lookup_fmap, Hid. }
    unfold bind at 1. rewrite (assign_partial _ _ _ _ _ _ (Hc _ timestamp)).
    unfold bind at 1. rewrite (assign_partial _ _ _ _ _ _ (Hc _ sender)).
    unfold bind at 1. rewrite (assign_partial _ _ _ _ _ _ (Hc _ isActive)).
    unfold ret at 1. apply IH. lia.
Qed.

Lemma getMessagesBatch_eq ids x :
  getMessagesBatch ids x =
    let st := ledger (world x) in
    if all_valid st ids
    then Ok ((column timestamp st ids, column sender st ids,
              column isActive st ids), x)
    else Err NotFound.
Proof.
  unfold getMessagesBatch, for_range. rewrite Nat.sub_0_r.
  exact (getMessagesBatch_loop ids x (length ids) 0 eq_refl).
Qed.

Lemma getUserMessageMetadata_loop ids x k i :
  (i + k = length ids)%nat →
  let st := ledger (world x) in
  for_loop k i (getUserMessageMetadata_body ids)
    (take i (column timestamp st ids) ++ replicate k 0,
     take i ids ++ replicate k 0,
     take i (column isActive st ids) ++ replicate k false) x
  = Ok ((column timestamp st ids, ids, column isActive st ids), x).
Proof.
  intros Hik st. revert i Hik. induction k as [|k IH]; intros i Hik.
  - cbn. rewrite !take_ge, !app_nil_r
      by (unfold column; rewrite ?length_fmap; lia).
    done.
  - destruct (lookup_lt_is_Some_2 ids i) as [id Hid]; [lia|].
    cbn [for_loop].
    unfold bind at 1. unfold getUserMessageMetadata_body, index. rewrite Hid.
    unfold bind at 1. unfold ret at 1. unfold bind at 1.
    unfold read_storage at 1. fold st.
    assert (Hc : ∀ A (f : Message → A),
              column f st ids !! i = Some (f (message_at st id))).
    { intros A f. unfold column. by rewrite list_lookup_fmap, Hid. }
    unfold bind at 1. rewrite (assign_partial _ _ _ _ _ _ (Hc _ timestamp)).
    unfold bind at 1. rewrite (assign_partial _ _ _ _ _ _ Hid).
    unfold bind at 1. rewrite (assign_partial _ _ _ _ _ _ (Hc _ isActive)).
    unfold ret at 1. apply IH. lia.
Qed.

Lemma getUserMessageMetadata_eq user x :
  getUserMessageMetadata user x =
    let st := ledger (world x) in
    let ids := ids_of st user in
    Ok ((column timestamp st ids, ids, column isActive st ids), x).
Proof.
  unfold getUserMessageMetadata. unfold bind at 1. unfold read_storage at 1.
  unfold for_range. rewrite Nat.sub_0_r.
  exact (getUserMessageMetadata_loop _ x (length _) 0 eq_refl).
Qed.

(** *** One call as a whole *)

Lemma transact_effect tx w :
  effect w tx (transact tx w).1 (transact tx w).2.
Proof.
  destruct tx as [env c]. unfold transact. cbn [fst snd].
  destruct c; cbn [dispatch]; unfold bind.
  - destruct (submitMessage _ _ _ _) as [[u x']|e] eqn:Hs; [|constructor].
    apply submitMessage_Ok in Hs as (Hp & Hle & content & a & ->).
    unfold ret. cbn. by constructor.
  - rewrite getMessage_eq. cbn. destruct (_ <? _); cbn; by constructor.
  - cbn. by constructor.
  - cbn. by constructor.
  - rewrite getUserMessageMetadata_eq. cbn. by constructor.
  - cbn. by constructor.
  - rewrite getMessagesBatch_eq. cbn. destruct (all_valid _ _); by constructor.
  - rewrite deleteMessage_eq. cbn.
    destruct (_ <? _) eqn:Hlt; [|constructor].
    destruct (bool_decide _) eqn:Ho; [|constructor].
    destruct (isActive _) eqn:Ha; [|constructor].
    cbn. constructor; [by apply N.ltb_lt|by apply bool_decide_eq_true in Ho|done].
  - rewrite isMessageActive_eq. cbn. by constructor.
Qed.

End CallLemmas.


(** ** Reasoning about the storage *)

Section StorageLemmas.
Context {CA : CiphertextAuthority}.

Lemma filter_ext_elem {A} (P Q : A → Prop)
    `{!∀ x, Decision (P x), !∀ x, Decision (Q x)} (l : list A) :
  (∀ x, x ∈ l → P x ↔ Q x) → filter P l = filter Q l.
Proof.
  induction l as [|a l IH]; intros HPQ; [done|].
  assert (IH' : filter P l = filter Q l).
  { apply IH. intros x Hx. apply HPQ. by right. }
  rewrite !filter_cons, IH'.
  destruct (decide (P a)) as [HP|HP], (decide (Q a)) as [HQ|HQ]; try done.
  - destruct HQ. apply HPQ; [by left|done].
  - destruct HP. apply HPQ; [by left|done].
Qed.

Lemma ids_below_succ n : ids_below (n + 1) = ids_below n ++ [n].
Proof.
  unfold ids_below. rewrite N.add_1_r, N2Nat.inj_succ, seq_S, fmap_app.
  cbn. by rewrite N2Nat.id.
Qed.

Lemma elem_of_ids_below n id : id ∈ ids_below n ↔ id < n.
Proof.
  unfold ids_below. rewrite list_elem_of_fmap. split.
  - intros (k & -> & Hk). apply elem_of_seq in Hk. lia.
  - intros Hlt. exists (N.to_nat id). rewrite N2Nat.id, elem_of_seq.
    split; [done|lia].
Qed.

Lemma NoDup_ids_below n : NoDup (ids_below n).
Proof.
  unfold ids_below. apply NoDup_fmap_2; [|apply NoDup_seq].
  intros a b. apply Nat2N.inj.
Qed.

Lemma message_at_after_submit st content env id :
  message_at (after_submit st content env) id =
    if decide (id = _totalMessages st)
    then mkMessage content (block_timestamp env) (msg_sender env) true
    else message_at st id.
Proof.
  unfold message_at, after_submit. cbn. case_decide as Hid.
  - subst. by rewrite lookup_insert_eq.
  - by rewrite lookup_insert_ne.
Qed.

Lemma ids_of_after_submit st content env o :
  ids_of (after_submit st content env) o =
    if decide (o = msg_sender env)
    then ids_of st o ++ [_totalMessages st]
    else ids_of st o.
Proof.
  unfold ids_of at 1. unfold after_submit. cbn. case_decide as Ho.
  - subst. by rewrite lookup_insert_eq.
  - by rewrite lookup_insert_ne.
Qed.

Lemma message_at_after_delete st id id' :
  message_at (after_delete st id) id' =
    if decide (id' = id)
    then mkMessage (encryptedContent (message_at st id))
           (timestamp (message_at st id)) (sender (message_at st id)) false
    else message_at st id'.
Proof.
  unfold message_at at 1. unfold after_delete. cbn. case_decide as Hid.
  - subst. by rewrite lookup_insert_eq.
  - by rewrite lookup_insert_ne.
Qed.

Lemma sender_after_delete st id id' :
  sender (message_at (after_delete st id) id') = sender (message_at st id').
Proof. rewrite message_at_after_delete. case_decide; by subst. Qed.

Lemma timestamp_after_delete st id id' :
  timestamp (message_at (after_delete st id) id') = timestamp (message_at st id').
Proof. rewrite message_at_after_delete. case_decide; by subst. Qed.

Lemma encryptedContent_after_delete st id id' :
  encryptedContent (message_at (after_delete st id) id')
  = encryptedContent (message_at st id').
Proof. rewrite message_at_after_delete. case_decide; by subst. Qed.

Lemma ledger_inv_empty : ledger_inv empty_Storage.
Proof.
  split.
  - intros id. cbn. rewrite lookup_empty. split; [by intros [? ?]|lia].
  - intros o. done.
Qed.

Lemma ledger_inv_submit st content env :
  ledger_inv st → ledger_inv (after_submit st content env).
Proof.
  intros [Hd Hi]. split.
  - intros id. cbn. rewrite lookup_insert_is_Some, Hd. lia.
  - intros o. rewrite ids_of_after_submit. cbn [_totalMessages after_submit].
    rewrite ids_below_succ, list.filter_app.
    rewrite (filter_ext_elem _ (λ id, sender (message_at st id) = o)
               (ids_below _)).
    2:{ intros id Hid%elem_of_ids_below. rewrite message_at_after_submit.
        rewrite decide_False by lia. done. }
    rewrite <- Hi, filter_cons, filter_nil, message_at_after_submit.
    destruct (decide (_totalMessages st = _totalMessages st)); [|done]. cbn.
    destruct (decide (o = msg_sender env)) as [->|Hne].
    + by rewrite decide_True.
    + rewrite decide_False by done. by rewrite app_nil_r.
Qed.

Lemma ledger_inv_delete st id :
  id < _totalMessages st → ledger_inv st → ledger_inv (after_delete st id).
Proof.
  intros Hlt [Hd Hi]. split.
  - intros id'. cbn. rewrite lookup_insert_is_Some, Hd. split.
    + by intros [<-|[_ ?]].
    + intros ?. destruct (decide (id = id')); auto.
  - intros o. cbn [_totalMessages after_delete].
    rewrite (list_filter_iff _ (λ id, sender (message_at st id) = o)).
    + by rewrite <- Hi.
    + intros id'. by rewrite sender_after_delete.
Qed.

Lemma ledger_inv_transact tx w :
  ledger_inv (ledger w) → ledger_inv (ledger (transact tx w).1).
Proof.
  intros Hinv. destruct (transact_effect tx w); cbn; try done.
  - by apply ledger_inv_submit.
  - by apply ledger_inv_delete.
Qed.

Lemma run_cons tx txs w :
  run (tx :: txs) w =
    ((run txs (transact tx w).1).1,
     (transact tx w).2 :: (run txs (transact tx w).1).2).
Proof. cbn. destruct (transact tx w) as [w1 o]. cbn. by destruct (run txs w1). Qed.

Lemma receipts_cons tx txs w :
  receipts (tx :: txs) w = (tx, (transact tx w).2) :: receipts txs (transact tx w).1.
Proof. unfold receipts. by rewrite run_cons. Qed.

Lemma reachable_run txs w : reachable w → reachable (run txs w).1.
Proof.
  revert w. induction txs as [|tx txs IH]; intros w Hw; [done|].
  rewrite run_cons. cbn. apply IH. by constructor.
Qed.

Lemma ledger_inv_reachable w : reachable w → ledger_inv (ledger w).
Proof.
  induction 1 as [a|w tx _ IH]; [apply ledger_inv_empty|].
  by apply ledger_inv_transact.
Qed.

Lemma ledger_inv_run a txs : ledger_inv (ledger (run txs (genesis a)).1).
Proof. apply ledger_inv_reachable, reachable_run. constructor. Qed.

End StorageLemmas.

(** ** Reasoning about single transactions *)

Section TransactLemmas.
Context {CA : CiphertextAuthority}.

Lemma all_valid_true st ids :
  all_valid st ids = true ↔ ∀ id, id ∈ ids → id < _totalMessages st.
Proof.
  unfold all_valid. rewrite forallb_forall. split.
  - intros H id Hid. apply N.ltb_lt, H. by apply list_elem_of_In.
  - intros H id Hid. apply N.ltb_lt, H. by apply list_elem_of_In.
Qed.

Lemma all_valid_false st ids :
  all_valid st ids = false ↔ ∃ id, id ∈ ids ∧ _totalMessages st ≤ id.
Proof.
  split.
  - intros Hf. induction ids as [|id ids IH]; [done|].
    cbn in Hf. apply andb_false_iff in Hf as [Hid|Hrest].
    + exists id. split; [by left|]. apply N.ltb_ge, Hid.
    + destruct (IH Hrest) as (id' & ? & ?). exists id'. split; [by right|done].
  - intros (id & Hid & Hge). destruct (all_valid st ids) eqn:Hv; [|done].
    pose proof (proj1 (all_valid_true st ids) Hv id Hid). lia.
Qed.

Lemma transact_getMessage env id w :
  transact (env, CallGetMessage id) w =
    if id <? _totalMessages (ledger w)
    then let m := message_at (ledger w) id in
         (w, Succeeded
               (RetMessage (encryptedContent m, timestamp m, sender m, isActive m))
               [])
    else (w, Reverted NotFound).
Proof.
  unfold transact. cbn [fst snd dispatch]. unfold bind.
  rewrite getMessage_eq. cbn. by destruct (_ <? _).
Qed.

Lemma transact_deleteMessage env id w :
  transact (env, CallDeleteMessage id) w =
    let st := ledger w in
    if id <? _totalMessages st then
      if bool_decide (sender (message_at st id) = msg_sender env) then
        if isActive (message_at st id) then
          (mkWorld (after_delete st id) (coprocessor w),
           Succeeded RetUnit [MessageDeleted (msg_sender env) id])
        else (w, Reverted AlreadyDeleted)
      else (w, Reverted Unauthorized)
    else (w, Reverted NotFound).
Proof.
  unfold transact. cbn [fst snd dispatch]. unfold bind.
  rewrite deleteMessage_eq. cbn.
  destruct (_ <? _); [|done]. destruct (bool_decide _); [|done].
  by destruct (isActive _).
Qed.

Lemma transact_getMessagesBatch env ids w :
  transact (env, CallGetMessagesBatch ids) w =
    let st := ledger w in
    if all_valid st ids
    then (w, Succeeded
               (RetBatch (column timestamp st ids, column sender st ids,
                          column isActive st ids)) [])
    else (w, Reverted NotFound).
Proof.
  unfold transact. cbn [fst snd dispatch]. unfold bind.
  rewrite getMessagesBatch_eq. cbn. by destruct (all_valid _ _).
Qed.

Lemma transact_getUserMessageMetadata env user w :
  transact (env, CallGetUserMessageMetadata user) w =
    let st := ledger w in
    let ids := ids_of st user in
    (w, Succeeded
          (RetMetadata (column timestamp st ids, ids, column isActive st ids))
          []).
Proof.
  unfold transact. cbn [fst snd dispatch]. unfold bind.
  by rewrite getUserMessageMetadata_eq.
Qed.

Lemma column_lookup {A} (f : Message → A) st ids i id :
  ids !! i = Some id → column f st ids !! i = Some (f (message_at st id)).
Proof. intros Hi. unfold column. by rewrite list_lookup_fmap, Hi. Qed.

Lemma column_length {A} (f : Message → A) st ids :
  length (column f st ids) = length ids.
Proof. unfold column. by rewrite length_fmap. Qed.

End TransactLemmas.

(** ** Reasoning about sequences of transactions *)

Section RunLemmas.
Context {CA : CiphertextAuthority}.

(** A receipt that is not a successful create assigns no identifier. *)
Lemma created_view tx r :
  is_view tx.2 = true → created (tx, Succeeded r []) = [].
Proof. destruct tx as [env []]; done. Qed.

Lemma created_reverted tx e : created (tx, Reverted e) = [].
Proof. by destruct tx as [env []]. Qed.

Lemma is_create_view tx r evs :
  is_view tx.2 = true → is_create (tx, Succeeded r evs) = false.
Proof. destruct tx as [env []]; done. Qed.

Lemma is_create_reverted tx e : is_create (tx, Reverted e) = false.
Proof. by destruct tx as [env []]. Qed.

Lemma created_by_nil o r : created r = [] → created_by o r = [].
Proof. unfold created_by. intros ->. by destruct (bool_decide _). Qed.

(** From any world on, the successful creates of a run receive the
    identifiers that follow the counter, one each. *)
Lemma created_run txs w :
  let n := length (List.filter is_create (receipts txs w)) in
  created <$> List.filter is_create (receipts txs w)
    = (λ k, [_totalMessages (ledger w) + N.of_nat k]) <$> seq 0 n ∧
  _totalMessages (ledger (run txs w).1)
    = _totalMessages (ledger w) + N.of_nat n.
Proof.
  revert w. induction txs as [|tx txs IH]; intros w.
  { cbn. split; [done|lia]. }
  rewrite receipts_cons, run_cons. cbn [fst List.filter].
  destruct (IH (transact tx w).1) as [IHc IHt]. cbn zeta in IHc, IHt.
  rewrite IHt. clear IH IHt.
  pose proof (transact_effect tx w) as He.
  destruct (transact tx w) as [w1 o]. cbn [fst snd] in *.
  set (n := length (List.filter is_create (receipts txs w1))) in *.
  inversion He as [tx' e|tx' r Hv|env h p content a Hp Hle|env id Hlt Ho Ha];
    subst.
  - rewrite is_create_reverted. fold n. split; [done|lia].
  - rewrite is_create_view by done. fold n. split; [done|lia].
  - cbn [is_create length fmap list_fmap]. fold n. rewrite IHc.
    cbn [created omap submitted_id ledger after_submit _totalMessages].
    split; [|lia].
    cbn [seq fmap list_fmap]. rewrite N.add_0_r. f_equal.
    rewrite <- fmap_S_seq, <- list_fmap_compose.
    apply list_fmap_ext. intros _ k _. cbn. f_equal. lia.
  - cbn [is_create ledger after_delete _totalMessages]. fold n.
    split; [done|lia].
Qed.

(** The index of an owner grows by the identifiers of that owner's
    successful creates, in the order of the run. *)
Lemma ids_of_run txs w o :
  ids_of (ledger (run txs w).1) o
    = ids_of (ledger w) o ++ (receipts txs w ≫= created_by o).
Proof.
  revert w. induction txs as [|tx txs IH]; intros w.
  { cbn. by rewrite app_nil_r. }
  rewrite receipts_cons, run_cons. cbn [fst].
  rewrite bind_cons, IH. clear IH.
  pose proof (transact_effect tx w) as He.
  destruct (transact tx w) as [w1 oc]. cbn [fst snd] in *.
  inversion He as [tx' e|tx' r Hv|env h p content a Hp Hle|env id Hlt Ho Ha];
    subst.
  - by rewrite (created_by_nil _ _ (created_reverted _ _)).
  - by rewrite (created_by_nil _ _ (created_view _ _ Hv)).
  - cbn [ledger]. rewrite ids_of_after_submit. unfold created_by. cbn.
    destruct (decide (o = msg_sender env)) as [->|Hne].
    + rewrite bool_decide_eq_true_2 by done. by rewrite <- app_assoc.
    + rewrite bool_decide_eq_false_2 by done. done.
  - unfold created_by. cbn. by destruct (bool_decide _).
Qed.

Lemma persists_transact tx w id :
  id < _totalMessages (ledger w) →
  persists (ledger w) (ledger (transact tx w).1) id.
Proof.
  intros Hid. pose proof (transact_effect tx w) as He.
  destruct (transact tx w) as [w1 oc]. cbn [fst snd] in *.
  inversion He as [tx' e|tx' r Hv|env h p content a Hp Hle|env id' Hlt Ho Ha];
    subst; unfold persists; cbn [ledger]; try done.
  - rewrite message_at_after_submit, decide_False by lia.
    cbn [after_submit _totalMessages]. repeat split; try done. lia.
  - rewrite encryptedContent_after_delete, timestamp_after_delete,
      sender_after_delete, message_at_after_delete.
    repeat split; try done. by case_decide.
Qed.

Lemma persists_run txs w id :
  id < _totalMessages (ledger w) →
  persists (ledger w) (ledger (run txs w).1) id.
Proof.
  revert w. induction txs as [|tx txs IH]; intros w Hid.
  { by repeat split. }
  rewrite run_cons. cbn [fst].
  destruct (persists_transact tx w id Hid) as (H1 & Hc & Ht & Hs & Ha).
  destruct (IH _ H1) as (H1' & Hc' & Ht' & Hs' & Ha').
  repeat split; try congruence. auto.
Qed.

Lemma status_eq w id :
  status w id =
    if id <? _totalMessages (ledger w)
    then if isActive (message_at (ledger w) id) then Active else Inactive
    else Nonexistent.
Proof.
  unfold status, view. rewrite isMessageActive_eq. cbn.
  destruct (_ <? _); [|done]. by destruct (isActive _).
Qed.

End RunLemmas.

(** ** The properties of the specification *)

Section Properties.
Context {CA : CiphertextAuthority}.

(** C5. A create with an empty proof blob fails with [InvalidProof] before
    any effect: the body reverts at its first statement, the transaction
    leaves the world as it was (counter, records, owner indices, authority)
    and its receipt carries no event. *)
Theorem create_rejects_empty_proof (env : Env) (h : N) (w : World) (x : Exec) :
  submitMessage env h [] x = Err InvalidProof ∧
  transact (env, CallSubmitMessage h []) w = (w, Reverted InvalidProof) ∧
  let w' := (transact (env, CallSubmitMessage h []) w).1 in
  _totalMessages (ledger w') = _totalMessages (ledger w) ∧
  _messages (ledger w') = _messages (ledger w) ∧
  _userMessages (ledger w') = _userMessages (ledger w) ∧
  (∀ r evs, (transact (env, CallSubmitMessage h []) w).2 ≠ Succeeded r evs).
Proof.
  assert (Ht : transact (env, CallSubmitMessage h []) w = (w, Reverted InvalidProof))
    by reflexivity.
  split; [reflexivity|]. split; [exact Ht|]. rewrite Ht. cbn. done.
Qed.

(** C6. Point lookup: [getMessage id] succeeds exactly when
    [id < _totalMessages], then returning the four fields of the stored
    record; otherwise it fails with [NotFound]; in both cases the world is
    unchanged and nothing is emitted.  In a world reached from the deployed
    ledger the record read for a valid id is one that was written. *)
Theorem point_lookup_contract (env : Env) (id : N) (w : World) :
  let st := ledger w in
  let m := message_at st id in
  (id < _totalMessages st →
     transact (env, CallGetMessage id) w =
       (w, Succeeded
             (RetMessage (encryptedContent m, timestamp m, sender m, isActive m))
             [])) ∧
  (_totalMessages st ≤ id →
     transact (env, CallGetMessage id) w = (w, Reverted NotFound)) ∧
  ((∃ r evs, (transact (env, CallGetMessage id) w).2 = Succeeded r evs)
     ↔ id < _totalMessages st) ∧
  (transact (env, CallGetMessage id) w).1 = w ∧
  (∀ x r x', getMessage id x = Ok (r, x') → x' = x) ∧
  (reachable w → id < _totalMessages st → _messages st !! id = Some m).
Proof.
  intros st m. rewrite transact_getMessage. fold st. fold m.
  destruct (id <? _totalMessages st) eqn:Hlt.
  - apply N.ltb_lt in Hlt. repeat split; try done; try lia.
    + by eexists _, _.
    + intros x r x'. rewrite getMessage_eq.
      destruct (_ <? _); [|done]. by intros [= _ <-].
    + intros Hr _. destruct (ledger_inv_reachable w Hr) as [Hd _].
      destruct (proj2 (Hd id) Hlt) as [m' Hm']. unfold m, message_at, st.
      by rewrite Hm'.
  - apply N.ltb_ge in Hlt. repeat split; try done; try lia.
    + by intros (r & evs & ?).
    + intros x r x'. rewrite getMessage_eq.
      destruct (_ <? _); [|done]. by intros [= _ <-].
Qed.

(** C2. Delete checks its preconditions in order: [NotFound] for an id that
    is not below the counter, then [Unauthorized] for a caller that is not
    the owner (whether or not the record is still active), then
    [AlreadyDeleted] for an inactive record; otherwise it succeeds, clears
    the active flag and emits the deletion event.  After a successful
    delete the probe answers (true, false), a second delete by the owner
    fails with [AlreadyDeleted] and a delete by anyone else fails with
    [Unauthorized]. *)
Theorem delete_precondition_order (env : Env) (id : N) (w : World) :
  let st := ledger w in
  let tx := (env, CallDeleteMessage id) in
  (_totalMessages st ≤ id → transact tx w = (w, Reverted NotFound)) ∧
  (id < _totalMessages st →
     sender (message_at st id) ≠ msg_sender env →
     transact tx w = (w, Reverted Unauthorized)) ∧
  (id < _totalMessages st →
     sender (message_at st id) = msg_sender env →
     isActive (message_at st id) = false →
     transact tx w = (w, Reverted AlreadyDeleted)) ∧
  (id < _totalMessages st →
     sender (message_at st id) = msg_sender env →
     isActive (message_at st id) = true →
     let w' := (transact tx w).1 in
     (transact tx w).2 = Succeeded RetUnit [MessageDeleted (msg_sender env) id] ∧
     isActive (message_at (ledger w') id) = false ∧
     view (isMessageActive id) w' = Ok (true, false) ∧
     (∀ env', msg_sender env' = msg_sender env →
        transact (env', CallDeleteMessage id) w' = (w', Reverted AlreadyDeleted)) ∧
     (∀ env', msg_sender env' ≠ msg_sender env →
        transact (env', CallDeleteMessage id) w' = (w', Reverted Unauthorized))).
Proof.
  intros st tx. unfold tx. rewrite transact_deleteMessage. fold st. cbn zeta.
  split; [|split; [|split]].
  - intros Hge. apply N.ltb_ge in Hge. by rewrite Hge.
  - intros Hlt Hne. apply N.ltb_lt in Hlt. rewrite Hlt.
    by rewrite bool_decide_eq_false_2.
  - intros Hlt Ho Ha. apply N.ltb_lt in Hlt. rewrite Hlt.
    by rewrite bool_decide_eq_true_2, Ha.
  - intros Hlt Ho Ha. apply N.ltb_lt in Hlt.
    rewrite Hlt, bool_decide_eq_true_2, Ha by done. cbn [fst snd].
    assert (Hm : message_at (after_delete st id) id =
                 mkMessage (encryptedContent (message_at st id))
                   (timestamp (message_at st id)) (sender (message_at st id))
                   false).
    { rewrite message_at_after_delete. by rewrite decide_True. }
    assert (Ht : _totalMessages (after_delete st id) = _totalMessages st)
      by done.
    split; [done|]. split; [cbn [ledger]; by rewrite Hm|]. split.
    { unfold view. rewrite isMessageActive_eq. cbn [world ledger].
      by rewrite Ht, Hlt, Hm. }
    split.
    + intros env' He. rewrite transact_deleteMessage. cbn [ledger]. cbn zeta.
      rewrite Ht, Hlt, Hm. cbn [sender isActive].
      rewrite bool_decide_eq_true_2; [done|congruence].
    + intros env' He. rewrite transact_deleteMessage. cbn [ledger]. cbn zeta.
      rewrite Ht, Hlt, Hm. cbn [sender].
      rewrite bool_decide_eq_false_2; [done|congruence].
Qed.

(** C9. A successful delete changes the active flag of its record and
    nothing else: the record keeps its content handle, timestamp and owner,
    every other record, every owner index, the counter and the authority
    are as before, and the one event emitted is the deletion event. *)
Theorem delete_frame (env : Env) (id : N) (w w' : World) (r : Return)
    (evs : list Event) :
  transact (env, CallDeleteMessage id) w = (w', Succeeded r evs) →
  let st := ledger w in
  let st' := ledger w' in
  isActive (message_at st' id) = false ∧
  _messages st' !! id =
    Some (mkMessage (encryptedContent (message_at st id))
            (timestamp (message_at st id)) (sender (message_at st id)) false) ∧
  encryptedContent (message_at st' id) = encryptedContent (message_at st id) ∧
  timestamp (message_at st' id) = timestamp (message_at st id) ∧
  sender (message_at st' id) = sender (message_at st id) ∧
  (∀ id', id' ≠ id → _messages st' !! id' = _messages st !! id') ∧
  _userMessages st' = _userMessages st ∧
  (∀ o, view (getUserMessages o) w' = view (getUserMessages o) w) ∧
  _totalMessages st' = _totalMessages st ∧
  coprocessor w' = coprocessor w ∧
  evs = [MessageDeleted (msg_sender env) id].
Proof.
  rewrite transact_deleteMessage. cbn zeta.
  destruct (_ <? _); [|done]. destruct (bool_decide _); [|done].
  destruct (isActive _); [|done]. intros [= <- <- <-]. cbn [ledger coprocessor].
  rewrite encryptedContent_after_delete, timestamp_after_delete,
    sender_after_delete, message_at_after_delete, decide_True by done.
  cbn [isActive after_delete _messages _userMessages _totalMessages].
  rewrite lookup_insert_eq. repeat split; try done.
  intros id' Hne. by rewrite lookup_insert_ne.
Qed.

(** C3. The batch read is all or nothing: if any requested id is not below
    the counter the call fails with [NotFound] and returns nothing;
    otherwise it returns three columns as long as the request, whose i-th
    row is the timestamp, owner and active flag of the record with the
    i-th requested id, so that equal ids give equal rows; the empty request
    gives three empty columns.  The world is unchanged either way. *)
Theorem batch_all_or_nothing (env : Env) (ids : list N) (w : World) :
  let st := ledger w in
  ((∃ id, id ∈ ids ∧ _totalMessages st ≤ id) →
     transact (env, CallGetMessagesBatch ids) w = (w, Reverted NotFound)) ∧
  ((∀ id, id ∈ ids → id < _totalMessages st) →
     ∃ ts ss acts,
       transact (env, CallGetMessagesBatch ids) w
         = (w, Succeeded (RetBatch (ts, ss, acts)) []) ∧
       length ts = length ids ∧ length ss = length ids ∧
       length acts = length ids ∧
       (∀ i id, ids !! i = Some id →
          ts !! i = Some (timestamp (message_at st id)) ∧
          ss !! i = Some (sender (message_at st id)) ∧
          acts !! i = Some (isActive (message_at st id))) ∧
       (∀ i j id, ids !! i = Some id → ids !! j = Some id →
          ts !! i = ts !! j ∧ ss !! i = ss !! j ∧ acts !! i = acts !! j)) ∧
  transact (env, CallGetMessagesBatch []) w
    = (w, Succeeded (RetBatch ([], [], [])) []).
Proof.
  intros st. split; [|split].
  - intros Hbad. rewrite transact_getMessagesBatch. cbn zeta. fold st.
    by rewrite (proj2 (all_valid_false st ids) Hbad).
  - intros Hok. rewrite transact_getMessagesBatch. cbn zeta. fold st.
    rewrite (proj2 (all_valid_true st ids) Hok).
    eexists _, _, _. split; [done|]. rewrite !column_length.
    repeat split; try done.
    + by apply column_lookup.
    + by apply column_lookup.
    + by apply column_lookup.
    + by rewrite !(column_lookup _ _ _ _ id).
    + by rewrite !(column_lookup _ _ _ _ id).
    + by rewrite !(column_lookup _ _ _ _ id).
  - by rewrite transact_getMessagesBatch.
Qed.

(** C1. Identifiers are dense and monotonic.  In any run of calls from the
    deployed ledger the i-th successful create reports identifier i, and the
    counter ends at the number of successful creates; and in any world a
    successful create raises the counter by exactly one, reports the old
    counter as the new identifier and stores the new record, active, under
    it. *)
Theorem monotonic_dense_ids :
  (∀ a txs,
     let creates := List.filter is_create (receipts txs (genesis a)) in
     let w := (run txs (genesis a)).1 in
     (∀ i r, creates !! i = Some r → created r = [N.of_nat i]) ∧
     view getTotalMessages w = Ok (N.of_nat (length creates))) ∧
  (∀ env h p w w' r evs,
     transact (env, CallSubmitMessage h p) w = (w', Succeeded r evs) →
     let n := _totalMessages (ledger w) in
     _totalMessages (ledger w') = n + 1 ∧
     view getTotalMessages w' = Ok (n + 1) ∧
     evs = [MessageSubmitted (msg_sender env) n (block_timestamp env)] ∧
     ∃ content,
       _messages (ledger w') !! n
         = Some (mkMessage content (block_timestamp env) (msg_sender env) true)).
Proof.
  split.
  - intros a txs creates w.
    destruct (created_run txs (genesis a)) as [Hc Ht]. cbn zeta in Hc, Ht.
    fold creates in Hc, Ht. fold w in Ht. split.
    + intros i r Hi.
      assert (Hl : (created <$> creates) !! i = Some (created r))
        by (by rewrite list_lookup_fmap, Hi).
      rewrite Hc, list_lookup_fmap in Hl.
      destruct (seq 0 (length creates) !! i) as [k|] eqn:Hk; [|done].
      apply lookup_seq in Hk as [-> _]. cbn in Hl. by injection Hl as <-.
    + unfold view. cbn. rewrite Ht. cbn. done.
  - intros env h p w w' r evs Ht.
    pose proof (transact_effect (env, CallSubmitMessage h p) w) as He.
    rewrite Ht in He. cbn [fst snd] in He.
    inversion He as [|tx' r' Hv|env' h' p' content a Hp Hle|]; subst;
      [by cbn in Hv|].
    cbn zeta. cbn [ledger after_submit _totalMessages _messages].
    rewrite lookup_insert_eq. repeat split; try done. by exists content.
Qed.

(** C8. The per-owner index.  After any run of calls from the deployed
    ledger, [getUserMessages o] returns exactly the identifiers assigned to
    the successful creates of [o], in the order of the run; this is the
    increasing enumeration of the records whose owner is [o], so each
    occurs once and no record of another owner is listed; a delete does not
    change it; [getMessageCount o] succeeds with its length, which is 0 for
    an owner without a successful create. *)
Theorem ownership_integrity (a : authority) (txs : list Tx) (o : N) :
  let w := (run txs (genesis a)).1 in
  let st := ledger w in
  let tr := receipts txs (genesis a) in
  view (getUserMessages o) w = Ok (ids_of st o) ∧
  ids_of st o = tr ≫= created_by o ∧
  ids_of st o
    = filter (λ id, sender (message_at st id) = o)
        (ids_below (_totalMessages st)) ∧
  NoDup (ids_of st o) ∧
  (∀ id, id ∈ ids_of st o ↔
         id < _totalMessages st ∧ sender (message_at st id) = o) ∧
  (∀ env id, ids_of (ledger (transact (env, CallDeleteMessage id) w).1) o
             = ids_of st o) ∧
  view (getMessageCount o) w = Ok (N.of_nat (length (ids_of st o))) ∧
  (Forall (λ r, is_create r = true → msg_sender r.1.1 ≠ o) tr →
   view (getMessageCount o) w = Ok 0).
Proof.
  intros w st tr.
  destruct (ledger_inv_run a txs) as [Hd Hi]. fold w in Hd, Hi. fold st in Hd, Hi.
  assert (Htr : ids_of st o = tr ≫= created_by o).
  { unfold st, w, tr. by rewrite ids_of_run. }
  split; [done|]. split; [done|]. split; [done|]. split.
  { rewrite Hi. apply list.NoDup_filter, NoDup_ids_below. }
  split.
  { intros id. rewrite Hi, list_elem_of_filter, elem_of_ids_below. tauto. }
  split.
  { intros env id. rewrite transact_deleteMessage. cbn zeta. fold st.
    destruct (_ <? _); [|done]. destruct (bool_decide _); [|done].
    by destruct (isActive _). }
  split; [done|].
  intros Hnone. unfold view, getMessageCount, bind, read_storage, ret.
  cbn [world]. fold st. rewrite Htr.
  replace (tr ≫= created_by o) with (@nil N); [done|].
  clear -Hnone. induction Hnone as [|r tr Hr _ IH]; [done|].
  rewrite bind_cons, <- IH, app_nil_r. unfold created_by.
  destruct (bool_decide _) eqn:Hb; [|done].
  apply bool_decide_eq_true in Hb.
  destruct r as [[env c] oc]. cbn in *.
  destruct c; try done. destruct oc; [|done]. by destruct Hr.
Qed.

(** C4. The metadata view agrees with point lookups.  After any run of
    calls from the deployed ledger, [getUserMessageMetadata o] succeeds
    without changing the world; its identifier column is what
    [getUserMessages o] returns, the three columns have that length, and
    for every position i [getMessage] succeeds on the i-th identifier and
    returns the timestamp and active flag found in row i. *)
Theorem metadata_get_equivalence (a : authority) (txs : list Tx) (o : N)
    (env : Env) :
  let w := (run txs (genesis a)).1 in
  ∃ ts ids acts,
    transact (env, CallGetUserMessageMetadata o) w
      = (w, Succeeded (RetMetadata (ts, ids, acts)) []) ∧
    view (getUserMessageMetadata o) w = Ok (ts, ids, acts) ∧
    view (getUserMessages o) w = Ok ids ∧
    length ts = length ids ∧ length acts = length ids ∧
    (∀ i id, ids !! i = Some id →
       ∃ c t s act,
         view (getMessage id) w = Ok (c, t, s, act) ∧
         ts !! i = Some t ∧ acts !! i = Some act).
Proof.
  intros w. rewrite transact_getUserMessageMetadata. cbn zeta.
  eexists _, _, _. split; [done|]. split.
  { unfold view. by rewrite getUserMessageMetadata_eq. }
  split; [done|]. rewrite !column_length. split; [done|]. split; [done|].
  intros i id Hi.
  destruct (ledger_inv_run a txs) as [_ Hidx]. fold w in Hidx.
  assert (Hlt : id < _totalMessages (ledger w)).
  { assert (Hin : id ∈ ids_of (ledger w) o) by (by eapply list_elem_of_lookup_2).
    rewrite Hidx, list_elem_of_filter, elem_of_ids_below in Hin. tauto. }
  eexists _, _, _, _. split.
  - unfold view. rewrite getMessage_eq. cbn [world].
    apply N.ltb_lt in Hlt. rewrite Hlt. done.
  - by rewrite !(column_lookup _ _ _ _ id).
Qed.

(** C7. The active flag is monotone.  For any call in any world and any
    identifier, the record's status moves only along
    nonexistent -> active -> inactive: an inactive record stays inactive, a
    record never ceases to exist, a record comes into existence only by a
    successful create, as active and under the old counter, and an active
    record becomes inactive only by a successful delete of that record by
    its owner; view calls change no status.  Over any run of calls an
    inactive record stays inactive. *)
Theorem active_flag_monotone (tx : Tx) (w : World) (id : N) :
  let w' := (transact tx w).1 in
  allowed (status w id) (status w' id) = true ∧
  (status w id = Inactive → status w' id = Inactive) ∧
  (status w id = Nonexistent → status w' id ≠ Nonexistent →
     status w' id = Active ∧ id = _totalMessages (ledger w) ∧
     ∃ env h p r evs,
       tx = (env, CallSubmitMessage h p) ∧
       (transact tx w).2 = Succeeded r evs) ∧
  (status w id = Active → status w' id = Inactive →
     ∃ env,
       tx = (env, CallDeleteMessage id) ∧
       msg_sender env = sender (message_at (ledger w) id) ∧
       (transact tx w).2 = Succeeded RetUnit [MessageDeleted (msg_sender env) id]) ∧
  (is_view tx.2 = true → status w' id = status w id) ∧
  (∀ txs, status w id = Inactive → status (run txs w).1 id = Inactive).
Proof.
  intros w'. unfold w'. clear w'.
  assert (Hrun : ∀ txs, status w id = Inactive → status (run txs w).1 id = Inactive).
  { intros txs. rewrite !status_eq.
    destruct (id <? _totalMessages (ledger w)) eqn:Hlt; [|done].
    apply N.ltb_lt in Hlt.
    destruct (isActive (message_at (ledger w) id)) eqn:Ha; [done|]. intros _.
    destruct (persists_run txs w id Hlt) as (Hlt' & _ & _ & _ & Hin).
    apply N.ltb_lt in Hlt'. by rewrite Hlt', Hin. }
  set (Stable := ∀ txs, status w id = Inactive → status (run txs w).1 id = Inactive)
    in *.
  clearbody Stable.
  pose proof (transact_effect tx w) as He.
  destruct (transact tx w) as [w1 oc]. cbn [fst snd] in *.
  inversion He as [tx' e|tx' r Hv|env h p content a Hp Hle|env id' Hlt Ho Ha];
    subst.
  - repeat split; try done; by destruct (status _ id).
  - repeat split; try done; by destruct (status _ id).
  - rewrite !status_eq. cbn [ledger after_submit _totalMessages].
    rewrite message_at_after_submit.
    destruct (decide (id = _totalMessages (ledger w))) as [->|Hne].
    + rewrite N.ltb_irrefl.
      rewrite (proj2 (N.ltb_lt _ _)) by lia. cbn [isActive].
      repeat split; try done. by eexists _, _, _, _, _.
    + destruct (id <? _totalMessages (ledger w)) eqn:Hlt.
      * apply N.ltb_lt in Hlt. rewrite (proj2 (N.ltb_lt _ _)) by lia.
        destruct (isActive (message_at (ledger w) id)); by repeat split.
      * apply N.ltb_ge in Hlt. rewrite (proj2 (N.ltb_ge _ _)) by lia.
        by repeat split.
  - rewrite !status_eq. cbn [ledger after_delete _totalMessages].
    rewrite message_at_after_delete.
    destruct (decide (id = id')) as [->|Hne].
    + apply N.ltb_lt in Hlt. rewrite Hlt, Ha. cbn [isActive].
      repeat split; try done. by exists env.
    + destruct (id <? _totalMessages (ledger w)); [|by repeat split].
      destruct (isActive (message_at (ledger w) id)); by repeat split.
Qed.

(** C10. Soft-deleted records remain readable.  A record below the counter
    whose active flag is false is returned by [getMessage], for any caller,
    with that flag.  After a successful delete, and whatever calls follow,
    [getMessage] returns the content handle, timestamp and owner the record
    had before the delete, with active = false; and the delete removes
    nothing from the other read paths: a batch that succeeded before
    succeeds after with the same timestamps and owners, the metadata of any
    owner has the same timestamps and identifiers, the owner indices are the
    same, and only the flags of the deleted record change, to false. *)
Theorem soft_deleted_readable :
  (∀ env id w,
     id < _totalMessages (ledger w) →
     isActive (message_at (ledger w) id) = false →
     let m := message_at (ledger w) id in
     transact (env, CallGetMessage id) w
       = (w, Succeeded
               (RetMessage (encryptedContent m, timestamp m, sender m, false))
               [])) ∧
  (∀ env id w w1 r evs,
     transact (env, CallDeleteMessage id) w = (w1, Succeeded r evs) →
     let m := message_at (ledger w) id in
     let flags := λ acts (ids : list N),
       zip_with (λ (act : bool) id', if decide (id' = id) then false else act)
         acts ids in
     (∀ txs env',
        let w2 := (run txs w1).1 in
        transact (env', CallGetMessage id) w2
          = (w2, Succeeded
                   (RetMessage (encryptedContent m, timestamp m, sender m, false))
                   [])) ∧
     (∀ env' ids ts ss acts,
        transact (env', CallGetMessagesBatch ids) w
          = (w, Succeeded (RetBatch (ts, ss, acts)) []) →
        transact (env', CallGetMessagesBatch ids) w1
          = (w1, Succeeded (RetBatch (ts, ss, flags acts ids)) [])) ∧
     (∀ env' o ts ids acts,
        transact (env', CallGetUserMessageMetadata o) w
          = (w, Succeeded (RetMetadata (ts, ids, acts)) []) →
        transact (env', CallGetUserMessageMetadata o) w1
          = (w1, Succeeded (RetMetadata (ts, ids, flags acts ids)) [])) ∧
     (∀ o, view (getUserMessages o) w1 = view (getUserMessages o) w)).
Proof.
  split.
  - intros env id w Hlt Ha m. rewrite transact_getMessage.
    apply N.ltb_lt in Hlt. rewrite Hlt. cbn zeta. unfold m. by rewrite Ha.
  - intros env id w w1 r evs. rewrite transact_deleteMessage. cbn zeta.
    destruct (id <? _totalMessages (ledger w)) eqn:Hlt; [|done].
    destruct (bool_decide _); [|done].
    destruct (isActive (message_at (ledger w) id)) eqn:Ha; [|done].
    intros [= <- <- <-]. apply N.ltb_lt in Hlt.
    set (st := ledger w). set (w1 := mkWorld (after_delete st id) (coprocessor w)).
    assert (Hts : ∀ ids, column timestamp (after_delete st id) ids
                         = column timestamp st ids).
    { intros ids. apply list_fmap_ext. intros _ id' _.
      apply timestamp_after_delete. }
    assert (Hss : ∀ ids, column sender (after_delete st id) ids
                         = column sender st ids).
    { intros ids. apply list_fmap_ext. intros _ id' _.
      apply sender_after_delete. }
    assert (Has : ∀ ids, column isActive (after_delete st id) ids
                = zip_with (λ (act : bool) id', if decide (id' = id) then false else act)
                    (column isActive st ids) ids).
    { intros ids. unfold column. induction ids as [|id' ids IH]; [done|].
      cbn [fmap list_fmap zip_with]. cbn [fmap] in IH. rewrite IH. f_equal.
      rewrite message_at_after_delete. by case_decide. }
    assert (Hv : ∀ ids, all_valid (after_delete st id) ids = all_valid st ids)
      by done.
    split; [|split; [|split]].
    + intros txs env'. cbn zeta. rewrite transact_getMessage.
      assert (Hlt1 : id < _totalMessages (ledger w1)) by done.
      destruct (persists_run txs w1 id Hlt1) as (Hlt2 & Hc & Ht & Hs & Hin).
      apply N.ltb_lt in Hlt2. rewrite Hlt2. cbn zeta.
      rewrite Hc, Ht, Hs, Hin.
      * cbn [w1 ledger]. by rewrite encryptedContent_after_delete,
          timestamp_after_delete, sender_after_delete.
      * cbn [w1 ledger]. rewrite message_at_after_delete.
        by rewrite decide_True.
    + intros env' ids ts ss acts. rewrite !transact_getMessagesBatch.
      cbn zeta. cbn [w1 ledger]. fold st. rewrite Hv, Hts, Hss, Has.
      destruct (all_valid st ids); [|done]. by intros [= <- <- <-].
    + intros env' o ts ids acts. rewrite !transact_getUserMessageMetadata.
      cbn zeta. cbn [w1 ledger]. fold st.
      assert (Hids : ids_of (after_delete st id) o = ids_of st o) by done.
      rewrite Hids, Hts, Has. by intros [= <- <- <-].
    + done.
Qed.

End Properties.

(** ** The properties on the scenario *)

Module ScenarioChecks.
Import Scenario.

(** The receipts of the scenarios of the specification. *)
Example scenario_receipts :
  (run (then_delete ++ [(as_alice, CallDeleteMessage 0);
                        (as_bob, CallSubmitMessage 9 []);
                        (as_bob, CallGetMessage 999)]) deployed).2
  = [Succeeded RetUnit [MessageSubmitted alice 0 1000];
     Succeeded RetUnit [MessageSubmitted bob 1 1001];
     Reverted Unauthorized;
     Succeeded RetUnit [MessageDeleted alice 0];
     Reverted AlreadyDeleted;
     Reverted InvalidProof;
     Reverted NotFound].
Proof. vm_compute. reflexivity. Qed.

(** C1 on the scenario: Bob's create on top of Alice's. *)
Lemma monotonic_dense_ids_witness :
  _totalMessages (ledger after_creates) = 2 ∧
  view getTotalMessages after_creates = Ok 2.
Proof.
  pose proof (proj2 monotonic_dense_ids as_bob 8 proof1
                (run [(as_alice, CallSubmitMessage 7 proof1)] deployed).1
                after_creates RetUnit [MessageSubmitted bob 1 1001]) as H.
  cbn zeta in H. destruct H as (H1 & H2 & _).
  - vm_compute. reflexivity.
  - split; [exact H1|exact H2].
Defined.

(** C2 on the scenario: the four outcomes of a delete. *)
Lemma delete_precondition_order_witness :
  transact (as_alice, CallDeleteMessage 5) after_creates
    = (after_creates, Reverted NotFound) ∧
  transact (as_bob, CallDeleteMessage 0) after_delete0
    = (after_delete0, Reverted Unauthorized) ∧
  transact (as_alice, CallDeleteMessage 0) after_delete0
    = (after_delete0, Reverted AlreadyDeleted) ∧
  (transact (as_alice, CallDeleteMessage 0) after_creates).2
    = Succeeded RetUnit [MessageDeleted alice 0].
Proof.
  destruct (delete_precondition_order as_alice 5 after_creates)
    as (HnotFound & _).
  destruct (delete_precondition_order as_bob 0 after_delete0)
    as (_ & Hunauthorized & _).
  destruct (delete_precondition_order as_alice 0 after_delete0)
    as (_ & _ & Halready & _).
  destruct (delete_precondition_order as_alice 0 after_creates)
    as (_ & _ & _ & Hok).
  cbn zeta in *.
  split; [|split; [|split]].
  - apply HnotFound. vm_compute. discriminate.
  - apply Hunauthorized.
    + vm_compute. reflexivity.
    + vm_compute. discriminate.
  - apply Halready.
    + vm_compute. reflexivity.
    + vm_compute. reflexivity.
    + vm_compute. reflexivity.
  - apply Hok.
    + vm_compute. reflexivity.
    + vm_compute. reflexivity.
    + vm_compute. reflexivity.
Defined.

(** C3 on the scenario: a batch with an unknown id, and one with a
    repeated id. *)
Lemma batch_all_or_nothing_witness :
  transact (as_bob, CallGetMessagesBatch [1; 0; 2]) after_delete0
    = (after_delete0, Reverted NotFound) ∧
  ∃ ts ss acts,
    transact (as_bob, CallGetMessagesBatch [1; 0; 1]) after_delete0
      = (after_delete0, Succeeded (RetBatch (ts, ss, acts)) []) ∧
    length ts = 3%nat.
Proof.
  split.
  - apply (proj1 (batch_all_or_nothing as_bob [1; 0; 2] after_delete0)).
    exists 2. split; [apply list_elem_of_In; cbn; tauto|]. vm_compute. discriminate.
  - destruct (proj1 (proj2 (batch_all_or_nothing as_bob [1; 0; 1] after_delete0)))
      as (ts & ss & acts & Ht & Hl & _).
    + intros id Hid. apply list_elem_of_In in Hid. cbn in Hid.
      destruct Hid as [<-|[<-|[<-|[]]]]; vm_compute; reflexivity.
    + exists ts, ss, acts. split; [exact Ht|exact Hl].
Defined.

(** C6 on the scenario: a stored record and an unknown id. *)
Lemma point_lookup_contract_witness :
  transact (as_bob, CallGetMessage 0) after_delete0
    = (after_delete0, Succeeded (RetMessage (7, 1000, alice, false)) []) ∧
  transact (as_bob, CallGetMessage 999) deployed = (deployed, Reverted NotFound).
Proof.
  split.
  - apply (proj1 (point_lookup_contract as_bob 0 after_delete0)).
    vm_compute. reflexivity.
  - apply (proj1 (proj2 (point_lookup_contract as_bob 999 deployed))).
    vm_compute. discriminate.
Defined.

(** C9 on the scenario: Alice's delete of record 0. *)
Lemma delete_frame_witness :
  _totalMessages (ledger after_delete0) = _totalMessages (ledger after_creates) ∧
  encryptedContent (message_at (ledger after_delete0) 0) = 7.
Proof.
  pose proof (delete_frame as_alice 0 after_creates after_delete0 RetUnit
                [MessageDeleted alice 0]) as H.
  cbn zeta in H.
  destruct H as (_ & _ & Hc & _ & _ & _ & _ & _ & Ht & _).
  - vm_compute. reflexivity.
  - split; [exact Ht|]. rewrite Hc. vm_compute. reflexivity.
Defined.

(** C4 on the scenario: the metadata of Alice. *)
Lemma metadata_get_equivalence_witness :
  ∃ ts ids acts,
    view (getUserMessageMetadata alice) after_delete0 = Ok (ts, ids, acts) ∧
    view (getUserMessages alice) after_delete0 = Ok ids ∧
    (∀ i id, ids !! i = Some id →
       ∃ c t s act,
         view (getMessage id) after_delete0 = Ok (c, t, s, act) ∧
         ts !! i = Some t ∧ acts !! i = Some act).
Proof.
  destruct (metadata_get_equivalence (CA := mock_authority) [] then_delete
              alice as_bob)
    as (ts & ids & acts & _ & Hm & Hl & _ & _ & Hrow).
  exists ts, ids, acts. split; [exact Hm|]. split; [exact Hl|exact Hrow].
Defined.

(** C7 on the scenario: record 0 stays inactive. *)
Lemma active_flag_monotone_witness :
  status (transact (as_bob, CallSubmitMessage 9 proof1) after_delete0).1 0
    = Inactive ∧
  status (run two_creates after_delete0).1 0 = Inactive.
Proof.
  destruct (active_flag_monotone (as_bob, CallSubmitMessage 9 proof1)
              after_delete0 0) as (_ & Hstep & _ & _ & _ & Hrun).
  split.
  - apply Hstep. vm_compute. reflexivity.
  - apply Hrun. vm_compute. reflexivity.
Defined.

(** C8 on the scenario: an address without creates, and Alice. *)
Lemma ownership_integrity_witness :
  view (getMessageCount 12) after_delete0 = Ok 0 ∧
  view (getUserMessages alice) after_delete0
    = Ok (ids_of (ledger after_delete0) alice).
Proof.
  destruct (ownership_integrity (CA := mock_authority) [] then_delete 12)
    as (_ & _ & _ & _ & _ & _ & _ & Hzero).
  destruct (ownership_integrity (CA := mock_authority) [] then_delete alice)
    as (Hlist & _).
  split; [|exact Hlist].
  apply Hzero. vm_compute. repeat constructor; discriminate.
Defined.

(** C10 on the scenario: record 0 read by Bob after its delete. *)
Lemma soft_deleted_readable_witness :
  transact (as_bob, CallGetMessage 0) after_delete0
    = (after_delete0, Succeeded (RetMessage (7, 1000, alice, false)) []) ∧
  transact (as_bob, CallGetMessage 0)
      (run two_creates after_delete0).1
    = ((run two_creates after_delete0).1,
       Succeeded (RetMessage (7, 1000, alice, false)) []).
Proof.
  destruct soft_deleted_readable as [Hget Hdel]. split.
  - apply (Hget as_bob 0 after_delete0).
    + vm_compute. reflexivity.
    + vm_compute. reflexivity.
  - destruct (Hdel as_alice 0 after_creates after_delete0 RetUnit
                [MessageDeleted alice 0]) as (Hlater & _).
    + vm_compute. reflexivity.
    + apply (Hlater two_creates as_bob).
Defined.

End ScenarioChecks.

(** ** Further properties of the contract *)

Section FurtherLemmas.
Context {CA : CiphertextAuthority}.

Lemma transact_submitMessage env h p w :
  transact (env, CallSubmitMessage h p) w = submit_outcome env h p w.
Proof.
  unfold transact, submit_outcome. cbn [fst snd dispatch]. unfold bind at 1.
  unfold submitMessage. unfold_monad. cbn.
  destruct p as [|b p]; [done|]. cbn.
  destruct (fromExternal _ _ _ _ _) as [[content a1]|]; [|done]. cbn.
  destruct (_ <=? MAX_UINT256); [|done]. cbn.
  destruct (allow _ _ (this env) _) as [a2|]; [|done]. cbn.
  by destruct (allow _ _ (msg_sender env) _) as [a3|].
Qed.

Lemma history_cons o os : history (o :: os) = events_of o ++ history os.
Proof. done. Qed.

Lemma journal_inv_empty : journal_inv empty_Storage [].
Proof.
  split.
  - intros s id t. cbn. split; [by intros ?%elem_of_nil|lia].
  - done.
  - intros s id. cbn. split; [by intros ?%elem_of_nil|lia].
  - constructor.
Qed.

Lemma journal_inv_submit st h content env :
  journal_inv st h →
  journal_inv (after_submit st content env)
    (h ++ [MessageSubmitted (msg_sender env) (_totalMessages st)
             (block_timestamp env)]).
Proof.
  intros [Hs Ho Hd Hn]. split.
  - intros s id t. rewrite elem_of_app, list_elem_of_singleton, Hs.
    rewrite message_at_after_submit. cbn [after_submit _totalMessages].
    destruct (decide (id = _totalMessages st)) as [->|Hne]; cbn.
    + split.
      * intros [[? _]|[= <- <-]]; [lia|]. repeat split; lia.
      * intros (_ & <- & <-). by right.
    + split.
      * intros [(? & ? & ?)|[= ? ? ?]]; [|done]. repeat split; try done. lia.
      * intros (? & ? & ?). left. repeat split; try done. lia.
  - rewrite omap_app, Ho. cbn [after_submit _totalMessages].
    by rewrite ids_below_succ.
  - intros s id. rewrite elem_of_app, list_elem_of_singleton, Hd.
    rewrite message_at_after_submit. cbn [after_submit _totalMessages].
    destruct (decide (id = _totalMessages st)) as [->|Hne]; cbn.
    + split; [intros [[? _]|?]; [lia|done]|by intros (_ & _ & ?)].
    + split.
      * intros [(? & ? & ?)|?]; [|done]. repeat split; try done. lia.
      * intros (? & ? & ?). left. repeat split; try done. lia.
  - apply list.NoDup_app. split; [done|]. split; [|apply NoDup_singleton].
    intros e He ->%list_elem_of_singleton. apply Hs in He as [? _]. lia.
Qed.

Lemma journal_inv_delete st h id :
  id < _totalMessages st →
  isActive (message_at st id) = true →
  journal_inv st h →
  journal_inv (after_delete st id)
    (h ++ [MessageDeleted (sender (message_at st id)) id]).
Proof.
  intros Hlt Ha [Hs Ho Hd Hn]. split.
  - intros s id' t. rewrite elem_of_app, list_elem_of_singleton, Hs.
    rewrite sender_after_delete, timestamp_after_delete.
    cbn [after_delete _totalMessages]. split; [|tauto].
    by intros [?|?].
  - rewrite omap_app, Ho. cbn. by rewrite app_nil_r.
  - intros s id'. rewrite elem_of_app, list_elem_of_singleton, Hd.
    rewrite sender_after_delete, message_at_after_delete.
    cbn [after_delete _totalMessages].
    destruct (decide (id' = id)) as [->|Hne]; cbn.
    + split.
      * intros [(? & ? & ?)|[= <-]]; [congruence|done].
      * intros (_ & <- & _). by right.
    + split; [|tauto]. intros [?|[= _ ?]]; done.
  - apply list.NoDup_app. split; [done|]. split; [|apply NoDup_singleton].
    intros e He ->%list_elem_of_singleton. apply Hd in He as (_ & _ & ?).
    congruence.
Qed.

Lemma journal_inv_run txs w h :
  journal_inv (ledger w) h →
  journal_inv (ledger (run txs w).1) (h ++ history (run txs w).2).
Proof.
  revert w h. induction txs as [|tx txs IH]; intros w h Hinv.
  { cbn. by rewrite app_nil_r. }
  rewrite run_cons. cbn [fst snd]. rewrite history_cons, app_assoc.
  apply IH. clear IH.
  pose proof (transact_effect tx w) as He.
  destruct (transact tx w) as [w1 oc]. cbn [fst snd] in *.
  inversion He as [tx' e|tx' r Hv|env h' p content a Hp Hle|env id Hlt Ho Ha];
    subst; cbn [events_of ledger].
  - by rewrite app_nil_r.
  - by rewrite app_nil_r.
  - by apply journal_inv_submit.
  - rewrite <- Ho. by apply journal_inv_delete.
Qed.

Lemma counter_run txs w :
  _totalMessages (ledger w) ≤ _totalMessages (ledger (run txs w).1).
Proof. destruct (created_run txs w) as [_ ->]. lia. Qed.

Lemma view_getMessagesBatch ids w :
  view (getMessagesBatch ids) w =
    if all_valid (ledger w) ids
    then Ok (column timestamp (ledger w) ids, column sender (ledger w) ids,
             column isActive (ledger w) ids)
    else Err NotFound.
Proof.
  unfold view. rewrite getMessagesBatch_eq. cbn. by destruct (all_valid _ _).
Qed.

Lemma all_valid_app st ids1 ids2 :
  all_valid st (ids1 ++ ids2) = all_valid st ids1 && all_valid st ids2.
Proof. unfold all_valid. apply forallb_app. Qed.

Lemma column_app {A} (f : Message → A) st ids1 ids2 :
  column f st (ids1 ++ ids2) = column f st ids1 ++ column f st ids2.
Proof. unfold column. apply fmap_app. Qed.

Lemma counter_bound_reachable w :
  reachable w → _totalMessages (ledger w) ≤ MAX_UINT256.
Proof.
  induction 1 as [a|w tx _ IH]; [done|].
  destruct (transact_effect tx w); cbn; done.
Qed.

(** For a duplicate-free list of owners, the sizes of the classes of a list
    under [f] add up to the number of elements whose class is listed. *)
Lemma sum_filter_classes {A} (f : A → N) (os : list N) (l : list A) :
  NoDup os →
  sum_list ((λ o, length (filter (λ x, f x = o) l)) <$> os)
  = length (filter (λ x, f x ∈ os) l).
Proof.
  intros Hnd. induction Hnd as [|o os Hnotin Hnd IH]; cbn [fmap list_fmap sum_list].
  { induction l as [|x l IHl]; [done|].
    rewrite filter_cons_False; [done|]. by intros ?%elem_of_nil. }
  rewrite IH. clear IH. induction l as [|x l IHl]; [done|].
  rewrite !filter_cons.
  destruct (decide (f x = o)) as [Hx|Hx].
  - rewrite decide_False by (by rewrite Hx).
    rewrite decide_True by (rewrite Hx; by left). cbn. by rewrite <- IHl.
  - destruct (decide (f x ∈ os)) as [Hin|Hin].
    + rewrite decide_True by (by right). cbn [length]. rewrite <- IHl.
      unfold id. lia.
    + rewrite decide_False; [done|].
      intros [?|?]%elem_of_cons; done.
Qed.

Lemma filter_all {A} (P : A → Prop) `{!∀ x, Decision (P x)} (l : list A) :
  (∀ x, x ∈ l → P x) → filter P l = l.
Proof.
  induction l as [|x l IH]; intros HP; [done|].
  rewrite filter_cons_True by (apply HP; by left).
  f_equal. apply IH. intros y Hy. apply HP. by right.
Qed.

Lemma stamped_in_order_transact tx w b :
  b ≤ block_timestamp tx.1 →
  stamped_in_order (ledger w) b →
  stamped_in_order (ledger (transact tx w).1) (block_timestamp tx.1).
Proof.
  intros Hb [Hbound Hsorted].
  pose proof (transact_effect tx w) as He.
  destruct (transact tx w) as [w1 oc]. cbn [fst snd] in *.
  inversion He as [tx' e|tx' r Hv|env h p content a Hp Hle|env id Hlt Ho Ha];
    subst; cbn [ledger fst] in *.
  - split; [|done]. intros id Hid. specialize (Hbound id Hid). lia.
  - split; [|done]. intros id Hid. specialize (Hbound id Hid). lia.
  - cbn [after_submit _totalMessages]. split.
    + intros id Hid. cbn in Hid. rewrite message_at_after_submit.
      case_decide; cbn; [lia|]. assert (Hlt : id < _totalMessages (ledger w)) by lia.
      specialize (Hbound id Hlt). lia.
    + intros i j Hij Hj. cbn in Hj. rewrite !message_at_after_submit.
      destruct (decide (j = _totalMessages (ledger w))) as [->|Hne].
      * case_decide; cbn; [lia|].
        assert (Hlt : i < _totalMessages (ledger w)) by lia.
        specialize (Hbound i Hlt). lia.
      * rewrite decide_False by lia. apply Hsorted; lia.
  - cbn [after_delete _totalMessages]. split.
    + intros id' Hid. rewrite timestamp_after_delete.
      specialize (Hbound id' Hid). lia.
    + intros i j Hij Hj. rewrite !timestamp_after_delete. by apply Hsorted.
Qed.

Lemma stamped_in_order_run txs w b :
  non_decreasing (stamps txs) →
  Forall (N.le b) (stamps txs) →
  stamped_in_order (ledger w) b →
  ∃ b', stamped_in_order (ledger (run txs w).1) b'.
Proof.
  revert w b. induction txs as [|tx txs IH]; intros w b Hsorted Hall Hinv.
  { by exists b. }
  rewrite run_cons. cbn [fst].
  unfold stamps in Hsorted, Hall. rewrite fmap_cons in Hsorted, Hall.
  destruct Hsorted as [Hf Hs].
  apply list.Forall_cons in Hall as [Hb _].
  apply (IH _ (block_timestamp tx.1)); [done|done|].
  by apply (stamped_in_order_transact tx w b).
Qed.

End FurtherLemmas.

Section FurtherProperties.
Context {CA : CiphertextAuthority}.

(** X1. The seven [view] functions are read-only: whatever they return,
    and also when they revert, the world after the call is the world before
    it, no event is emitted, and even inside a larger execution the body
    hands back the execution state it was given. *)
Theorem views_are_read_only (env : Env) (c : Call) (w : World) :
  is_view c = true →
  (transact (env, c) w).1 = w ∧
  (∀ r evs, (transact (env, c) w).2 = Succeeded r evs → evs = []) ∧
  (∀ x r x', dispatch env c x = Ok (r, x') → x' = x).
Proof.
  intros Hv. split; [|split].
  - pose proof (transact_effect (env, c) w) as He.
    destruct (transact (env, c) w) as [w1 oc]. cbn [fst snd] in *.
    inversion He; subst; done.
  - intros r evs Ho. pose proof (transact_effect (env, c) w) as He.
    destruct (transact (env, c) w) as [w1 oc]. cbn [fst snd] in *. subst.
    inversion He; subst; [done|done|done].
  - intros x r x'. destruct c; try done; cbn [dispatch]; unfold bind.
    + rewrite getMessage_eq. destruct (_ <? _); [|done]. by intros [= _ <-].
    + by intros [= _ <-].
    + by intros [= _ <-].
    + rewrite getUserMessageMetadata_eq. by intros [= _ <-].
    + by intros [= _ <-].
    + rewrite getMessagesBatch_eq. cbn zeta.
      destruct (all_valid _ _); [|done]. by intros [= _ <-].
    + rewrite isMessageActive_eq. by intros [= _ <-].
Qed.

(** X2. The creation events are a faithful journal of the records.  After
    any run of calls from the deployed ledger, [MessageSubmitted s id t]
    is in the logs exactly when record [id] exists with owner [s] and
    timestamp [t], and the identifiers of the creation events, in log
    order, are 0, 1, ..., [_totalMessages - 1]. *)
Theorem journal_of_creates (a : authority) (txs : list Tx) :
  let st := ledger (run txs (genesis a)).1 in
  let h := history (run txs (genesis a)).2 in
  (∀ s id t,
     MessageSubmitted s id t ∈ h ↔
     id < _totalMessages st ∧ sender (message_at st id) = s ∧
     timestamp (message_at st id) = t) ∧
  omap submitted_id h = ids_below (_totalMessages st).
Proof.
  intros st h.
  destruct (journal_inv_run txs (genesis a) [] journal_inv_empty) as [Hs Ho _ _].
  by split.
Qed.

(** X3. The deletion events are a faithful journal of the active flags.
    After any run of calls from the deployed ledger, [MessageDeleted s id]
    is in the logs exactly when record [id] exists, is owned by [s] and is
    inactive; no event occurs twice in the logs; so an existing record is
    active exactly when the logs hold no deletion event for it. *)
Theorem journal_of_deletes (a : authority) (txs : list Tx) :
  let st := ledger (run txs (genesis a)).1 in
  let h := history (run txs (genesis a)).2 in
  (∀ s id,
     MessageDeleted s id ∈ h ↔
     id < _totalMessages st ∧ sender (message_at st id) = s ∧
     isActive (message_at st id) = false) ∧
  NoDup h ∧
  (∀ id, id < _totalMessages st →
     (isActive (message_at st id) = true ↔ ∀ s, MessageDeleted s id ∉ h)).
Proof.
  intros st h.
  destruct (journal_inv_run txs (genesis a) [] journal_inv_empty) as [_ _ Hd Hn].
  fold st in Hd. change ([] ++ ?l) with l in Hd, Hn. fold h in Hd, Hn.
  split; [done|]. split; [done|]. intros id Hlt. split.
  - intros Ha s Hin. apply Hd in Hin as (_ & _ & ?). congruence.
  - intros Hno. destruct (isActive (message_at st id)) eqn:Ha; [done|].
    destruct (Hno (sender (message_at st id))). by apply Hd.
Qed.

(** X4. The counter stays within 256 bits.  In every world reached from the
    deployed ledger [_totalMessages <= 2^256 - 1]; a create at that bound,
    with a proof the authority accepts, reverts with the arithmetic panic
    0x11 and changes nothing. *)
Theorem counter_bounded :
  (∀ a txs, _totalMessages (ledger (run txs (genesis a)).1) ≤ MAX_UINT256) ∧
  (∀ env h p w,
     p ≠ [] →
     is_Some (fromExternal (this env) (msg_sender env) h p (coprocessor w)) →
     _totalMessages (ledger w) = MAX_UINT256 →
     transact (env, CallSubmitMessage h p) w = (w, Reverted (Panic PANIC_OVERFLOW))).
Proof.
  split.
  - intros a txs. apply counter_bound_reachable, reachable_run. constructor.
  - intros env h p w Hp [[content a1] Hf] Hmax.
    rewrite transact_submitMessage. unfold submit_outcome.
    destruct p as [|b p]; [done|]. rewrite Hf, Hmax. done.
Qed.

(** X5. A create is all or nothing.  It succeeds exactly when the proof is
    not empty, the authority accepts the input, the counter has room and
    the authority accepts the grant to the contract and then the grant to
    the sender; then the stored handle is the one the authority returned.
    In every other case the call reverts, with [InvalidProof], the
    authority's failure or the overflow panic, and the world is unchanged:
    the counter, record and index written before a rejected grant are
    rolled back. *)
Theorem create_all_or_nothing (env : Env) (h : N) (p : list byte) (w : World) :
  let tx := (env, CallSubmitMessage h p) in
  let accepted content a1 a2 a3 :=
    fromExternal (this env) (msg_sender env) h p (coprocessor w)
      = Some (content, a1) ∧
    _totalMessages (ledger w) + 1 ≤ MAX_UINT256 ∧
    allow (this env) content (this env) a1 = Some a2 ∧
    allow (this env) content (msg_sender env) a2 = Some a3 in
  ((∃ r evs, (transact tx w).2 = Succeeded r evs) ↔
     p ≠ [] ∧ ∃ content a1 a2 a3, accepted content a1 a2 a3) ∧
  (∀ content a1 a2 a3, p ≠ [] → accepted content a1 a2 a3 →
     transact tx w =
       (mkWorld (after_submit (ledger w) content env) a3,
        Succeeded RetUnit
          [MessageSubmitted (msg_sender env) (_totalMessages (ledger w))
             (block_timestamp env)])) ∧
  (∀ e, (transact tx w).2 = Reverted e →
     (transact tx w).1 = w ∧
     (e = InvalidProof ∨ e = AuthorityFailure ∨ e = Panic PANIC_OVERFLOW)) ∧
  (∀ content a1, p ≠ [] →
     fromExternal (this env) (msg_sender env) h p (coprocessor w)
       = Some (content, a1) →
     _totalMessages (ledger w) + 1 ≤ MAX_UINT256 →
     (allow (this env) content (this env) a1 = None ∨
      ∃ a2, allow (this env) content (this env) a1 = Some a2 ∧
            allow (this env) content (msg_sender env) a2 = None) →
     transact tx w = (w, Reverted AuthorityFailure)).
Proof.
  cbn zeta. rewrite transact_submitMessage. unfold submit_outcome.
  destruct p as [|b p].
  { split; [|split; [|split]]; try done.
    - split; [by intros (? & ? & ?)|by intros [? _]].
    - intros e [= <-]. split; [done|]. by left. }
  destruct (fromExternal _ _ _ _ _) as [[content a1]|] eqn:Hf.
  2:{ split; [|split; [|split]]; try done.
      - split; [by intros (? & ? & ?)|]. by intros (_ & ? & ? & ? & ? & ? & _).
      - by intros ? ? ? ? _ (? & _).
      - intros e [= <-]. split; [done|]. right. by left. }
  destruct (_ <=? MAX_UINT256) eqn:Hle.
  2:{ apply N.leb_gt in Hle. split; [|split; [|split]].
      - split; [by intros (? & ? & ?)|].
        intros (_ & ? & ? & ? & ? & _ & ? & _). lia.
      - intros ? ? ? ? _ (_ & ? & _). lia.
      - intros e [= <-]. split; [done|]. right. by right.
      - intros ? ? _ _ ?. lia. }
  apply N.leb_le in Hle.
  destruct (allow _ _ (this env) _) as [a2|] eqn:Ha1.
  2:{ split; [|split; [|split]]; try done.
      - split; [by intros (? & ? & ?)|].
        intros (_ & ? & ? & ? & ? & [= <- <-] & _ & ? & _). congruence.
      - intros ? ? ? ? _ ([= <- <-] & _ & ? & _). congruence.
      - intros e [= <-]. split; [done|]. right. by left. }
  destruct (allow _ _ (msg_sender env) _) as [a3|] eqn:Ha2.
  2:{ split; [|split; [|split]]; try done.
      - split; [by intros (? & ? & ?)|].
        intros (_ & ? & ? & ? & ? & [= <- <-] & _ & ? & ?). congruence.
      - intros ? ? ? ? _ ([= <- <-] & _ & ? & ?). congruence.
      - intros e [= <-]. split; [done|]. right. by left. }
  split; [|split; [|split]]; try done.
  - split; [|by eexists _, _]. intros _. split; [done|].
    by exists content, a1, a2, a3.
  - intros ? ? ? ? _ ([= <- <-] & _ & ? & ?). congruence.
  - intros ? ? _ [= <- <-] _ [?|(? & ? & ?)]; congruence.
Qed.

(** X6. The probe agrees with the point lookup.  [isMessageActive] never
    reverts and changes nothing; it answers (true, a) exactly when
    [getMessage] succeeds, and then [a] is the active flag [getMessage]
    returns; it answers (false, false) exactly when [getMessage] reverts,
    which it then does with [NotFound]. *)
Theorem probe_agrees_with_get (env : Env) (id : N) (w : World) :
  ∃ e a,
    transact (env, CallIsMessageActive id) w
      = (w, Succeeded (RetProbe (e, a)) []) ∧
    (e = true ↔
       ∃ c t s, transact (env, CallGetMessage id) w
                  = (w, Succeeded (RetMessage (c, t, s, a)) [])) ∧
    (e = false ↔
       transact (env, CallGetMessage id) w = (w, Reverted NotFound)) ∧
    (e = false → a = false).
Proof.
  rewrite transact_getMessage. unfold transact. cbn [fst snd dispatch].
  unfold bind. rewrite isMessageActive_eq. cbn [world emitted ret].
  destruct (id <? _totalMessages (ledger w)).
  - eexists _, _. split; [done|]. repeat split; try done.
    intros _. by eexists _, _, _.
  - eexists _, _. split; [done|]. repeat split; try done.
    by intros (? & ? & ? & ?).
Qed.

(** X7. Batches concatenate.  A batch read of [ids1 ++ ids2] succeeds
    exactly when the batch reads of [ids1] and of [ids2] both succeed, and
    then each of its columns is the concatenation of theirs; otherwise it
    fails with [NotFound].  So a failed batch can be narrowed without
    changing the rows that are returned. *)
Theorem batch_concatenation (ids1 ids2 : list N) (w : World) :
  view (getMessagesBatch (ids1 ++ ids2)) w =
    match view (getMessagesBatch ids1) w, view (getMessagesBatch ids2) w with
    | Ok (t1, s1, a1), Ok (t2, s2, a2) => Ok (t1 ++ t2, s1 ++ s2, a1 ++ a2)
    | _, _ => Err NotFound
    end.
Proof.
  rewrite !view_getMessagesBatch, all_valid_app, !column_app.
  destruct (all_valid (ledger w) ids1), (all_valid (ledger w) ids2); done.
Qed.

(** X8. A batch read over an owner's own index.  After any run of calls
    from the deployed ledger, [getMessagesBatch] applied to what
    [getUserMessages o] returns never fails; its timestamps and flags are
    the columns of [getUserMessageMetadata o], and every entry of its
    owner column is [o]. *)
Theorem batch_over_index (a : authority) (txs : list Tx) (o : N) :
  let w := (run txs (genesis a)).1 in
  ∃ ts ids acts,
    view (getUserMessages o) w = Ok ids ∧
    view (getUserMessageMetadata o) w = Ok (ts, ids, acts) ∧
    view (getMessagesBatch ids) w = Ok (ts, replicate (length ids) o, acts).
Proof.
  intros w. eexists _, _, _. split; [done|]. split.
  { unfold view. by rewrite getUserMessageMetadata_eq. }
  cbn [world]. rewrite view_getMessagesBatch.
  destruct (ledger_inv_run a txs) as [_ Hidx]. fold w in Hidx.
  assert (Hin : ∀ id, id ∈ ids_of (ledger w) o →
                id < _totalMessages (ledger w) ∧
                sender (message_at (ledger w) id) = o).
  { intros id. rewrite Hidx, list_elem_of_filter, elem_of_ids_below. tauto. }
  rewrite (proj2 (all_valid_true _ _)) by (intros id ?; by apply Hin).
  do 3 f_equal. unfold column. clear Hidx.
  induction (ids_of (ledger w) o) as [|id ids IH]; [done|]. cbn. f_equal.
  - apply Hin. by left.
  - apply IH. intros id' ?. apply Hin. by right.
Qed.

(** X9. The ledger is append-only.  Over any run of calls from any world
    the counter does not decrease, the index of every owner keeps its
    entries as a prefix, and so no owner's count decreases. *)
Theorem append_only (txs : list Tx) (w : World) (o : N) :
  let w' := (run txs w).1 in
  _totalMessages (ledger w) ≤ _totalMessages (ledger w') ∧
  ids_of (ledger w) o `prefix_of` ids_of (ledger w') o ∧
  ∃ n n', view (getMessageCount o) w = Ok n ∧
          view (getMessageCount o) w' = Ok n' ∧ n ≤ n'.
Proof.
  intros w'. split; [apply counter_run|]. unfold w'. rewrite ids_of_run.
  split; [by eexists|]. eexists _, _. split; [done|]. split.
  { unfold view, getMessageCount, bind, read_storage, ret. cbn [world].
    by rewrite ids_of_run. }
  cbn [world]. rewrite length_app. lia.
Qed.


(** X11. Every record is counted once.  After any run of calls from the
    deployed ledger, for any duplicate-free list of addresses that contains
    the owner of every record, the lengths of their indices (what
    [getMessageCount] returns) add up to [_totalMessages]. *)
Theorem counts_sum_to_total (a : authority) (txs : list Tx) (os : list N) :
  let st := ledger (run txs (genesis a)).1 in
  NoDup os →
  (∀ id, id < _totalMessages st → sender (message_at st id) ∈ os) →
  sum_list ((λ o, length (ids_of st o)) <$> os) = N.to_nat (_totalMessages st).
Proof.
  intros st Hnd Hall.
  destruct (ledger_inv_run a txs) as [_ Hidx]. fold st in Hidx.
  rewrite (list_fmap_ext _
             (λ o, length (filter (λ id, sender (message_at st id) = o)
                             (ids_below (_totalMessages st)))) os)
    by (by intros _ o _; cbn; rewrite Hidx).
  rewrite (sum_filter_classes (λ id, sender (message_at st id))) by done.
  rewrite filter_all.
  - unfold ids_below. by rewrite length_fmap, length_seq.
  - intros id Hid%elem_of_ids_below. by apply Hall.
Qed.

(** X12. Records are immutable apart from the active flag.  A record that
    exists keeps its content handle, timestamp and owner, and remains
    below the counter, over any run of calls from any world. *)
Theorem record_fields_immutable (txs : list Tx) (w : World) (id : N) :
  let st := ledger w in
  let st' := ledger (run txs w).1 in
  id < _totalMessages st →
  id < _totalMessages st' ∧
  encryptedContent (message_at st' id) = encryptedContent (message_at st id) ∧
  timestamp (message_at st' id) = timestamp (message_at st id) ∧
  sender (message_at st' id) = sender (message_at st id).
Proof.
  intros st st' Hlt.
  destruct (persists_run txs w id Hlt) as (? & ? & ? & ? & _). done.
Qed.

(** X13. Nobody but the owner changes a record.  A call whose sender is
    not the owner of an existing record leaves that record exactly as it
    was, whatever the call is. *)
Theorem only_owner_modifies (tx : Tx) (w : World) (id : N) :
  id < _totalMessages (ledger w) →
  msg_sender tx.1 ≠ sender (message_at (ledger w) id) →
  _messages (ledger (transact tx w).1) !! id = _messages (ledger w) !! id.
Proof.
  intros Hlt Hne. pose proof (transact_effect tx w) as He.
  destruct (transact tx w) as [w1 oc]. cbn [fst snd] in *.
  inversion He as [tx' e|tx' r Hv|env h p content a Hp Hle|env id' Hlt' Ho Ha];
    subst; cbn [ledger after_submit after_delete _messages]; try done.
  - rewrite lookup_insert_ne; [done|lia].
  - rewrite lookup_insert_ne; [done|]. intros ->. cbn in Hne. congruence.
Qed.

(** X14. Timestamps follow the blocks.  If the block timestamps under
    which the calls of a run execute never decrease, then after the run
    from the deployed ledger the record timestamps never decrease with the
    identifier. *)
Theorem timestamps_follow_blocks (a : authority) (txs : list Tx) (i j : N) :
  let st := ledger (run txs (genesis a)).1 in
  non_decreasing (stamps txs) →
  i ≤ j → j < _totalMessages st →
  timestamp (message_at st i) ≤ timestamp (message_at st j).
Proof.
  intros st Hsorted Hij Hj.
  destruct (stamped_in_order_run txs (genesis a) 0 Hsorted) as [b [_ Hs]].
  - apply Forall_forall. intros t _. lia.
  - split; cbn; intros; lia.
  - by apply Hs.
Qed.

End FurtherProperties.

(** ** The further properties on the scenario *)

Module FurtherChecks.
Import Scenario.

(** X1 on the scenario: a metadata read. *)
Lemma views_are_read_only_witness :
  (transact (as_bob, CallGetUserMessageMetadata alice) after_delete0).1
  = after_delete0.
Proof.
  apply (views_are_read_only as_bob (CallGetUserMessageMetadata alice)
           after_delete0).
  vm_compute. reflexivity.
Defined.

(** X3 on the scenario: record 1 was never deleted. *)
Lemma journal_of_deletes_witness :
  isActive (message_at (ledger after_delete0) 1) = true ↔
  ∀ s, MessageDeleted s 1 ∉ history (run then_delete deployed).2.
Proof.
  apply (proj2 (proj2 (journal_of_deletes (CA := mock_authority) []
                         then_delete)) 1).
  vm_compute. reflexivity.
Defined.

(** X4 on a full counter. *)
Lemma counter_bounded_witness :
  transact (as_alice, CallSubmitMessage 7 proof1)
    (mkWorld (CA := mock_authority) (mkStorage MAX_UINT256 ∅ ∅) [])
  = (mkWorld (CA := mock_authority) (mkStorage MAX_UINT256 ∅ ∅) [],
     Reverted (Panic PANIC_OVERFLOW)).
Proof.
  apply (proj2 (counter_bounded (CA := mock_authority))).
  - discriminate.
  - vm_compute. by eexists.
  - vm_compute. reflexivity.
Defined.

(** X5 on the scenario: Bob's create after Alice's. *)
Lemma create_all_or_nothing_witness :
  ∃ r evs,
    (transact (as_bob, CallSubmitMessage 8 proof1)
       (run [(as_alice, CallSubmitMessage 7 proof1)] deployed).1).2
    = Succeeded r evs.
Proof.
  apply (proj1 (create_all_or_nothing as_bob 8 proof1
                  (run [(as_alice, CallSubmitMessage 7 proof1)] deployed).1)).
  split; [discriminate|].
  exists 8%N, [(7, 99); (7, 10)]%N, [(7, 99); (7, 10); (8, 99)]%N,
    [(7, 99); (7, 10); (8, 99); (8, 11)]%N.
  repeat split; vm_compute; first [reflexivity | discriminate].
Defined.


(** X11 on the scenario: Alice and Bob own everything. *)
Lemma counts_sum_to_total_witness :
  sum_list ((λ o, length (ids_of (ledger after_delete0) o)) <$> [alice; bob])
  = 2%nat.
Proof.
  apply (counts_sum_to_total (CA := mock_authority) [] then_delete [alice; bob]).
  - apply list.NoDup_cons. split; [|apply NoDup_singleton].
    intros ?%list_elem_of_singleton. discriminate.
  - intros id Hid.
    assert (Ht : _totalMessages (ledger (run then_delete (genesis [])).1) = 2%N)
      by (vm_compute; reflexivity).
    rewrite Ht in Hid.
    destruct (decide (id = 0%N)) as [->|?];
      [|assert (id = 1%N) as -> by lia];
      apply list_elem_of_In; vm_compute; tauto.
Defined.

(** X12 on the scenario: record 0 across its delete. *)
Lemma record_fields_immutable_witness :
  encryptedContent (message_at (ledger (run then_delete after_creates).1) 0)
  = encryptedContent (message_at (ledger after_creates) 0).
Proof.
  apply (record_fields_immutable then_delete after_creates 0).
  vm_compute. reflexivity.
Defined.

(** X13 on the scenario: Bob's attempt on record 0. *)
Lemma only_owner_modifies_witness :
  _messages (ledger (transact (as_bob, CallDeleteMessage 0) after_creates).1) !! 0%N
  = _messages (ledger after_creates) !! 0%N.
Proof.
  apply (only_owner_modifies (as_bob, CallDeleteMessage 0) after_creates 0).
  - vm_compute. reflexivity.
  - vm_compute. discriminate.
Defined.

(** X14 on the scenario: Alice's block precedes Bob's. *)
Lemma timestamps_follow_blocks_witness :
  timestamp (message_at (ledger after_creates) 0)
  ≤ timestamp (message_at (ledger after_creates) 1).
Proof.
  apply (timestamps_follow_blocks (CA := mock_authority) [] two_creates 0 1).
  - cbn. repeat constructor. vm_compute. discriminate.
  - lia.
  - vm_compute. reflexivity.
Defined.

End FurtherChecks.

(** ** Properties of the client-side value codec *)

Module FrontendFacts.
Import Frontend.
Local Open Scope Z_scope.

Lemma ToInt32_range z : - 2 ^ 31 ≤ ToInt32 z < 2 ^ 31.
Proof.
  unfold ToInt32. pose proof (Z.mod_pos_bound z (2 ^ 32) eq_refl) as Hm.
  cbn zeta. destruct (z mod 2 ^ 32 <? 2 ^ 31) eqn:Hlt.
  - apply Z.ltb_lt in Hlt. lia.
  - apply Z.ltb_ge in Hlt. lia.
Qed.

Lemma hash_step_range hash char : - 2 ^ 31 ≤ hash_step hash char < 2 ^ 31.
Proof. unfold hash_step, band. apply ToInt32_range. Qed.

Lemma hash_loop_range str : - 2 ^ 31 ≤ hash_loop str < 2 ^ 31.
Proof.
  unfold hash_loop.
  assert (H : ∀ h, - 2 ^ 31 ≤ h < 2 ^ 31 →
              - 2 ^ 31 ≤ fold_left hash_step str h < 2 ^ 31).
  { induction str as [|c str IH]; intros h Hh; [done|].
    cbn [fold_left]. apply IH, hash_step_range. }
  apply H. lia.
Qed.

Lemma ushr_0 z : 0 ≤ z < 2 ^ 32 → ushr z 0 = z.
Proof.
  intros Hz. unfold ushr, ToUint32. cbn [Z.land]. rewrite Z.shiftr_0_r.
  by apply Z.mod_small.
Qed.

Lemma hashed_range str : 0 ≤ ushr (Z.abs (hash_loop str)) 0 ≤ 2 ^ 31.
Proof.
  pose proof (hash_loop_range str). rewrite ushr_0; lia.
Qed.

Lemma digit_not_whitespace c : is_digit c = true → is_whitespace c = false.
Proof.
  unfold is_digit, is_whitespace. intros [H1%N.leb_le H2%N.leb_le]%andb_true_iff.
  apply orb_false_intro.
  - apply bool_decide_eq_false. intros Hin.
    repeat (apply elem_of_cons in Hin as [->|Hin]; [lia|]).
    by apply elem_of_nil in Hin.
  - apply andb_false_iff. left. apply N.leb_gt. lia.
Qed.

Lemma trimStart_whitespace pre l :
  forallb is_whitespace pre = true → trimStart (pre ++ l) = trimStart l.
Proof.
  induction pre as [|c pre IH]; [done|]. cbn.
  intros [-> ?]%andb_true_iff. by apply IH.
Qed.

Lemma trimStart_digits m l :
  all_digits m = true → trimStart (m ++ l) = m ++ l.
Proof.
  destruct m as [|c m]; [done|]. cbn.
  intros [Hc _]%andb_true_iff. by rewrite (digit_not_whitespace c Hc).
Qed.

Lemma all_digits_reverse m : all_digits m = true → all_digits (reverse m) = true.
Proof.
  intros Hm. assert (Hall : forallb is_digit m = true) by (by destruct m).
  assert (Hr : forallb is_digit (reverse m) = true).
  { apply forallb_forall. intros c Hc. rewrite forallb_forall in Hall.
    apply Hall. apply list_elem_of_In. apply list_elem_of_In in Hc.
    by rewrite elem_of_reverse in Hc. }
  destruct (reverse m) as [|c r] eqn:Hrev; [|done].
  destruct m as [|c m]; [done|]. rewrite reverse_cons in Hrev.
  by destruct (reverse m).
Qed.

Lemma forallb_reverse {A} (f : A → bool) l :
  forallb f l = true → forallb f (reverse l) = true.
Proof.
  rewrite !forallb_forall. intros H x Hx. apply H.
  apply list_elem_of_In. apply list_elem_of_In in Hx.
  by rewrite elem_of_reverse in Hx.
Qed.

(** [trim] removes the padding around a numeral and nothing else. *)
Lemma trim_padded pre m post :
  forallb is_whitespace pre = true →
  forallb is_whitespace post = true →
  all_digits m = true →
  trim (pre ++ m ++ post) = m.
Proof.
  intros Hpre Hpost Hm. unfold trim.
  rewrite trimStart_whitespace, trimStart_digits by done.
  rewrite reverse_app, trimStart_whitespace by (by apply forallb_reverse).
  rewrite <- (app_nil_r (reverse m)).
  rewrite trimStart_digits by (by apply all_digits_reverse).
  by rewrite app_nil_r, reverse_involutive.
Qed.

Lemma all_digits_uint_codes d : d ≠ Decimal.Nil → all_digits (uint_codes d) = true.
Proof.
  intros Hd.
  assert (H : forallb is_digit (uint_codes d) = true).
  { clear Hd. induction d as [|d IH|d IH|d IH|d IH|d IH|d IH|d IH|d IH|d IH|d IH];
      cbn; by rewrite ?IH. }
  by destruct d.
Qed.

Lemma parse_uint_codes d d' :
  fold_left (λ acc c, 10 * acc + (Z.of_N c - 48)) (uint_codes d)
    (Z.of_N (DecimalPos.Unsigned.of_lu d'))
  = Z.of_N (DecimalPos.Unsigned.of_lu (Decimal.revapp d d')).
Proof.
  revert d'.
  induction d as [|d IH|d IH|d IH|d IH|d IH|d IH|d IH|d IH|d IH|d IH];
    intros d'; [done|..]; cbn [uint_codes fold_left Decimal.revapp];
    rewrite <- IH; f_equal; cbn [DecimalPos.Unsigned.of_lu]; lia.
Qed.

Lemma parseInt10_uint_codes n :
  parseInt10 (uint_codes (N.to_uint n)) = Z.of_N n.
Proof.
  unfold parseInt10.
  pose proof (parse_uint_codes (N.to_uint n) Decimal.Nil) as H.
  cbn [DecimalPos.Unsigned.of_lu Z.of_N] in H. rewrite H. clear H.
  change (Decimal.revapp ?d Decimal.Nil) with (Decimal.rev d).
  rewrite <- DecimalPos.Unsigned.of_uint_alt.
  change (Pos.of_uint ?d) with (N.of_uint d).
  by rewrite DecimalN.Unsigned.of_to.
Qed.

Lemma to_uint_nonnil n : N.to_uint n ≠ Decimal.Nil.
Proof.
  destruct n as [|p]; [done|]. apply DecimalPos.Unsigned.to_uint_nonnil.
Qed.

(** X15. The value sent for encryption always fits 32 bits.  For every
    string, [stringToUint32] returns an integer between 0 and 4294967295,
    so the range check of [encryptUint32] never rejects it; the hashed
    branch never exceeds 2^31, so a result above 2^31 can only be a numeral
    that the user typed. *)
Theorem stringToUint32_in_range (str : list N) :
  0 ≤ stringToUint32 str ≤ 4294967295 ∧
  (2 ^ 31 < stringToUint32 str →
     all_digits (trim str) = true ∧
     parseInt10 (trim str) = stringToUint32 str).
Proof.
  pose proof (hashed_range str) as Hh. unfold stringToUint32. cbn zeta.
  destruct (all_digits (trim str)); [|lia].
  destruct ((0 <=? parseInt10 (trim str)) && (parseInt10 (trim str) <=? 4294967295))
    eqn:Hn; [|lia].
  apply andb_true_iff in Hn as [H0%Z.leb_le H1%Z.leb_le]. lia.
Qed.

(** X16. Numbers survive the codec.  For every integer [n] between 0 and
    4294967295, the text [uint32ToString n] shows for a decrypted value,
    typed back with any white space around it, is read by
    [stringToUint32] as [n] again. *)
Theorem uint32_round_trip (n : Z) (pre post : list N) :
  0 ≤ n ≤ 4294967295 →
  forallb is_whitespace pre = true →
  forallb is_whitespace post = true →
  stringToUint32 (pre ++ uint32ToString n ++ post) = n.
Proof.
  intros Hn Hpre Hpost. unfold stringToUint32, uint32ToString. cbn zeta.
  rewrite (proj2 (Z.ltb_ge n 0)) by lia.
  rewrite trim_padded by (try done; apply all_digits_uint_codes, to_uint_nonnil).
  rewrite all_digits_uint_codes by apply to_uint_nonnil.
  rewrite parseInt10_uint_codes, Z2N.id by lia.
  rewrite (proj2 (Z.leb_le 0 n)), (proj2 (Z.leb_le n 4294967295)) by lia.
  done.
Qed.

Lemma hex_pair_length b : length (padStart 2 48%N (toString16 b)) = 2%nat.
Proof. by destruct b. Qed.

Lemma read_hex_pair b rest :
  read_hex_pairs (padStart 2 48%N (toString16 b) ++ rest)
  = match read_hex_pairs rest with
    | Some bs => Some (b :: bs)
    | None => None
    end.
Proof. destruct b; cbn; by destruct (read_hex_pairs rest). Qed.

Lemma read_hex_pairs_join bs :
  read_hex_pairs (mjoin ((λ b, padStart 2 48%N (toString16 b)) <$> bs)) = Some bs.
Proof.
  induction bs as [|b bs IH]; [done|].
  rewrite fmap_cons. change (mjoin (?x :: ?l)) with (x ++ mjoin l).
  by rewrite read_hex_pair, IH.
Qed.

Lemma hex_pairs_length bs :
  length (mjoin ((λ b, padStart 2 48%N (toString16 b)) <$> bs))
  = (2 * length bs)%nat.
Proof.
  induction bs as [|b bs IH]; [done|].
  rewrite fmap_cons. change (mjoin (?x :: ?l)) with (x ++ mjoin l).
  rewrite length_app, hex_pair_length, IH. cbn [length]. lia.
Qed.

(** X17. [toHexString] loses nothing.  Its result is "0x" followed by
    exactly two lower-case hexadecimal digits per byte, from which the
    bytes can be read back; so different byte arrays (handles, proofs) give
    different strings. *)
Theorem toHexString_faithful (bytes : list byte) :
  take 2 (toHexString bytes) = [48%N; 120%N] ∧
  length (toHexString bytes) = (2 + 2 * length bytes)%nat ∧
  read_hex_pairs (drop 2 (toHexString bytes)) = Some bytes ∧
  (∀ bytes', toHexString bytes = toHexString bytes' → bytes = bytes').
Proof.
  split; [done|]. split; [|split].
  - unfold toHexString. rewrite length_app, hex_pairs_length. done.
  - apply read_hex_pairs_join.
  - intros bytes' Heq.
    assert (Hd : ∀ bs, read_hex_pairs (drop 2 (toHexString bs)) = Some bs)
      by (intros bs; apply read_hex_pairs_join).
    pose proof (Hd bytes) as H. rewrite Heq, Hd in H. by injection H.
Qed.

(** X15 on the largest value: typed as a numeral it is sent as it is. *)
Lemma stringToUint32_in_range_witness :
  parseInt10 (trim [52; 50; 57; 52; 57; 54; 55; 50; 57; 53]%N)
  = stringToUint32 [52; 50; 57; 52; 57; 54; 55; 50; 57; 53]%N.
Proof.
  apply (proj2 (stringToUint32_in_range
                  [52; 50; 57; 52; 57; 54; 55; 50; 57; 53]%N)).
  vm_compute. reflexivity.
Defined.

(** X16 on 42 typed between a space and a line break. *)
Lemma uint32_round_trip_witness :
  stringToUint32 ([32%N] ++ uint32ToString 42 ++ [10%N]) = 42.
Proof.
  apply (uint32_round_trip 42 [32%N] [10%N]).
  - lia.
  - vm_compute. reflexivity.
  - vm_compute. reflexivity.
Defined.

(** X17 on a two-byte array: read back, and equal to any array with the
    same text. *)
Lemma toHexString_faithful_witness :
  read_hex_pairs (drop 2 (toHexString [x0a; xff]%byte)) = Some [x0a; xff]%byte ∧
  [x0a; xff]%byte = [x0a; xff]%byte.
Proof.
  destruct (toHexString_faithful [x0a; xff]%byte) as (_ & _ & Hread & Hinj).
  split; [exact Hread|]. apply Hinj. vm_compute. reflexivity.
Defined.

End FrontendFacts.
